(** * webrpc schema: type expressions ([schema/var_type.go])

    A shallow embedding of the type-expression parser and of the canonical
    serializer of the webrpc schema package, and the properties of it that
    the specification states.

    Go strings are byte strings: they are [String.string] here, one [ascii]
    per byte.  Go's [int] indices are [Z], so that [len(s)-1] on an empty
    string is [-1] and not [0].  A function that may panic (a slice out of
    range, a nil dereference) returns in [exec]; the recursion of
    [ParseVarTypeExpr] is driven by a fuel counter and [NoFuel] tells that the
    counter ran out.  A Go pointer that may be nil is an [option]; the
    function that mutates its receiver returns the receiver's new value. *)

From Stdlib Require Import String Ascii List ZArith Lia Bool.
Import ListNotations.

Local Open Scope string_scope.
Local Open Scope Z_scope.

Set Implicit Arguments.

(** ** Outcomes of a Go call *)

Inductive exec (A : Type) : Type :=
| Return (a : A)
| Panic
| NoFuel.

Arguments Return {A} a.
Arguments Panic {A}.
Arguments NoFuel {A}.

Definition bind {A B : Type} (m : exec A) (k : A -> exec B) : exec B :=
  match m with
  | Return a => k a
  | Panic => Panic
  | NoFuel => NoFuel
  end.

Notation "x <- m ;; k" := (bind m (fun x => k))
  (at level 61, m at next level, right associativity).
Notation "' p <- m ;; k" := (bind m (fun x => match x with p => k end))
  (at level 61, p pattern, m at next level, right associativity).

(** ** Go strings *)

Module GoString.

Definition len (s : string) : Z := Z.of_nat (String.length s).

Fixpoint take (n : nat) (s : string) : string :=
  match n, s with
  | S n', String c s' => String c (take n' s')
  | _, _ => ""
  end.

Fixpoint drop (n : nat) (s : string) : string :=
  match n, s with
  | S n', String _ s' => drop n' s'
  | _, _ => s
  end.

(** [s[lo:hi]]: panics unless [0 <= lo <= hi <= len(s)]. *)
Definition slice (s : string) (lo hi : Z) : exec string :=
  if (0 <=? lo) && (lo <=? hi) && (hi <=? len s)
  then Return (take (Z.to_nat (hi - lo)) (drop (Z.to_nat lo) s))
  else Panic.

(** [s[lo:]] *)
Definition slice_from (s : string) (lo : Z) : exec string :=
  slice s lo (len s).

(** [s[:hi]] *)
Definition slice_to (s : string) (hi : Z) : exec string :=
  slice s 0 hi.

(** [strings.HasPrefix(s, prefix)] *)
Definition HasPrefix (s prefix : string) : bool := String.prefix prefix s.

(** [strings.TrimPrefix(s, prefix)]: [s] itself when [prefix] is no prefix. *)
Definition TrimPrefix (s prefix : string) : string :=
  if HasPrefix s prefix then drop (String.length prefix) s else s.

(** [strings.Index(s, substr)]: the index of the first occurrence, [-1] when
    there is none. *)
Fixpoint Index_from (i : Z) (s substr : string) : Z :=
  if HasPrefix s substr then i
  else match s with
       | "" => -1
       | String _ s' => Index_from (i + 1) s' substr
       end.

Definition Index (s substr : string) : Z := Index_from 0 s substr.

(** [t] occurs in [s]. *)
Definition Contains (s t : string) : Prop :=
  exists pre post : string, s = (pre ++ t ++ post)%string.

End GoString.

(** ** The primitive type registry ([schema/data_type.go]) *)

(** Modelled from the spec: [data_type.go], which declares [DataType] and its
    constants, is not among the sources.  [T_Unknown], [T_List], [T_Map],
    [T_Struct], [T_String] and the ten integer kinds are the constants that
    [var_type.go] names; the other scalar kinds are those of the spec's
    registry (boolean, byte, floating point, timestamp, ...).  [T_Unknown] is
    the zero value of the type: a [VarType] that was only allocated, and a
    failed lookup in a Go map, have it. *)
Inductive DataType : Type :=
| T_Unknown
| T_Null | T_Any | T_Byte | T_Bool
| T_Uint | T_Uint8 | T_Uint16 | T_Uint32 | T_Uint64
| T_Int | T_Int8 | T_Int16 | T_Int32 | T_Int64
| T_Float32 | T_Float64
| T_String
| T_Timestamp
| T_List | T_Map
| T_Struct.

Definition DataType_eq_dec (a b : DataType) : {a = b} + {a <> b}.
Proof. decide equality. Defined.

Definition DataType_eqb (a b : DataType) : bool :=
  if DataType_eq_dec a b then true else false.


(** The kinds of the specification's TypeExpression, and the kind a
    [DataType] stands for: every constant that is not [T_Unknown], [T_List],
    [T_Map] or [T_Struct] is a scalar of the registry. *)
Inductive Kind : Type :=
| Primitive | ListKind | MapKind | StructKind | UnknownKind.

Definition kindOf (t : DataType) : Kind :=
  match t with
  | T_Unknown => UnknownKind
  | T_List => ListKind
  | T_Map => MapKind
  | T_Struct => StructKind
  | _ => Primitive
  end.

(** ** Errors

    One constructor for each [fmt.Errorf] of [var_type.go]; the arguments are
    the values the format string receives, [Error] is the message. *)

Inductive error : Type :=
| ErrJSONEmpty
| ErrJSONString
| ErrEmptyExpr
| ErrInvalidMapExpr (expr : string)
| ErrInvalidMapSyntax (expr : string)
| ErrInvalidMapKey (key expr : string)
| ErrInvalidMapKeyType (key expr : string)
| ErrInvalidStruct (structExpr : string).

Definition Error (e : error) : string :=
  match e with
  | ErrJSONEmpty => "json error: type cannot be empty"
  | ErrJSONString => "json error: string value is expected"
  | ErrEmptyExpr => "schema error: type expr cannot be empty"
  | ErrInvalidMapExpr expr =>
      "schema error: invalid map expr for '" ++ expr ++ "'"
  | ErrInvalidMapSyntax expr =>
      "schema error: invalid map syntax for '" ++ expr ++ "'"
  | ErrInvalidMapKey key expr =>
      "schema error: invalid map key '" ++ key ++ "' for '" ++ expr ++ "'"
  | ErrInvalidMapKeyType key expr =>
      "schema error: invalid map key type '" ++ key ++ "' for expr '"
        ++ expr ++ "'"
  | ErrInvalidStruct structExpr =>
      "schema error: invalid struct/message type '" ++ structExpr ++ "'"
  end.




(** The double quote character, as a one-byte string. *)
Definition dquote : string := String (ascii_of_nat 34) EmptyString.

(** ** Type expressions *)

Section Schema.

Import GoString.

(** [Message] is declared in another file of the package; only its name is
    read here ([string(msg.Name)]).  The catalog holds pointers to messages,
    taken to be non-nil. *)
Variable Message : Type.
Variable Message_Name : Message -> string.

Record WebRPCSchema : Type := mkWebRPCSchema { Messages : list Message }.

(** The two tables of [data_type.go].  [DataTypeFromString] is read with the
    two-value form of a map lookup, [DataTypeToString] with the one-value
    form, which yields the empty string for a key that is not in the map.
    [DataType.String] is [DataTypeToString] as well. *)
Variable DataTypeFromString : string -> option DataType.
Variable DataTypeToString : DataType -> string.

Record VarStructType : Type := mkVarStructType {
  Name : string;
  Struct_Message : option Message
}.

Inductive VarType : Type := mkVarType {
  Expr : string;
  Type_ : DataType;
  List : option VarListType;
  Map : option VarMapType;
  Struct : option VarStructType
}
with VarListType : Type := mkVarListType {
  Elem : option VarType
}
with VarMapType : Type := mkVarMapType {
  Key : DataType;
  Value : option VarType
}.

(** [VarType{}] *)
Definition emptyVarType : VarType := mkVarType "" T_Unknown None None None.

Definition set_Expr (t : VarType) (e : string) : VarType :=
  mkVarType e (Type_ t) (List t) (Map t) (Struct t).
Definition set_Type (t : VarType) (d : DataType) : VarType :=
  mkVarType (Expr t) d (List t) (Map t) (Struct t).
Definition set_List (t : VarType) (l : option VarListType) : VarType :=
  mkVarType (Expr t) (Type_ t) l (Map t) (Struct t).
Definition set_Map (t : VarType) (m : option VarMapType) : VarType :=
  mkVarType (Expr t) (Type_ t) (List t) m (Struct t).
Definition set_Struct (t : VarType) (s : option VarStructType) : VarType :=
  mkVarType (Expr t) (Type_ t) (List t) (Map t) s.

Definition String_ (t : VarType) : string := Expr t.

Definition UnmarshalJSON (t : VarType) (b : string)
  : exec (VarType * option error) :=
  if len b <=? 2 then Return (t, Some ErrJSONEmpty)
  else
    let s := b in
    first <- slice s 0 1 ;;
    if negb (first =? dquote)%string then Return (t, Some ErrJSONString)
    else
      last <- slice_from s (len s - 1) ;;
      if negb (last =? dquote)%string then Return (t, Some ErrJSONString)
      else
        s <- slice_from s 1 ;;
        s <- slice_to s (len s - 1) ;;
        Return (set_Expr t s, None).

Definition isListExpr (expr : string) : bool :=
  let listTest := DataTypeToString T_List in
  HasPrefix expr listTest.

Definition isMapExpr (expr : string) : bool :=
  let mapTest := (DataTypeToString T_Map ++ "<")%string in
  HasPrefix expr mapTest.

Fixpoint getMessageType_loop (msgs : list Message) (structExpr : string)
  : option Message * bool :=
  match msgs with
  | [] => (None, false)
  | msg :: rest =>
      if (structExpr =? Message_Name msg)%string then (Some msg, true)
      else getMessageType_loop rest structExpr
  end.

Definition getMessageType (schema : WebRPCSchema) (structExpr : string)
  : option Message * bool :=
  getMessageType_loop (Messages schema) structExpr.

Definition VarKeyDataTypes : list DataType :=
  [T_String; T_Uint; T_Uint8; T_Uint16; T_Uint32; T_Uint64;
   T_Int; T_Int8; T_Int16; T_Int32; T_Int64].

Definition VarIntegerDataTypes : list DataType :=
  [T_Uint; T_Uint8; T_Uint16; T_Uint32; T_Uint64;
   T_Int; T_Int8; T_Int16; T_Int32; T_Int64].

Fixpoint isValidVarType_loop (dt : DataType) (allowedList : list DataType)
  : bool :=
  match allowedList with
  | [] => false
  | t :: rest => if DataType_eqb dt t then true
                 else isValidVarType_loop dt rest
  end.

Definition isValidVarType (s : string) (allowedList : list DataType) : bool :=
  match DataTypeFromString s with
  | None => false
  | Some dt => isValidVarType_loop dt allowedList
  end.

Definition isValidVarKeyType (s : string) : bool :=
  isValidVarType s VarKeyDataTypes.

Definition parseMapExpr (expr : string)
  : exec (string * string * option error) :=
  if negb (isMapExpr expr)
  then Return ("", "", Some (ErrInvalidMapExpr expr))
  else
    let mapKeyword := DataTypeToString T_Map in
    expr <- slice_from expr (len mapKeyword) ;;
    first <- slice expr 0 1 ;;
    if negb (first =? "<")%string
    then Return ("", "", Some (ErrInvalidMapSyntax expr))
    else
      last <- slice_from expr (len expr - 1) ;;
      if negb (last =? ">")%string
      then Return ("", "", Some (ErrInvalidMapSyntax expr))
      else
        expr <- slice expr 1 (len expr - 1) ;;
        let p := Index expr "," in
        if p <? 0
        then Return ("", "", Some (ErrInvalidMapSyntax expr))
        else
          key <- slice expr 0 p ;;
          value <- slice_from expr (p + 1) ;;
          if negb (isValidVarKeyType key)
          then Return ("", "", Some (ErrInvalidMapKey key expr))
          else Return (key, value, None).

(** The data type [ParseVarTypeExpr] gives an expression before it looks
    into it (the lookup and the test for a complex type at its start); a
    failed lookup leaves the zero value, [T_Unknown]. *)
Definition exprDataType (expr : string) : DataType :=
  match DataTypeFromString expr with
  | Some dataType => dataType
  | None =>
      if isListExpr expr then T_List
      else if isMapExpr expr then T_Map
      else T_Unknown
  end.

(** [ParseVarTypeExpr] writes into [vt]: it returns the value [vt] has when
    the call ends, next to the error.  A nested type is allocated empty,
    stored in its parent and then filled by the recursive call; the parent
    holds it whether that call fails or not. *)
Fixpoint ParseVarTypeExpr (fuel : nat) (schema : WebRPCSchema)
  (expr : string) (vt : VarType) {struct fuel}
  : exec (VarType * option error) :=
  match fuel with
  | O => NoFuel
  | S fuel =>
    if (expr =? "")%string then Return (vt, None)
    else
      let vt := set_Expr vt expr in
      let dataType := exprDataType expr in
      let vt := set_Type vt dataType in
      match Type_ vt with
      | T_List =>
          let vt := set_List vt (Some (mkVarListType (Some emptyVarType))) in
          let expr := TrimPrefix expr (DataTypeToString T_List) in
          '(elem, err) <- ParseVarTypeExpr fuel schema expr emptyVarType ;;
          let vt := set_List vt (Some (mkVarListType (Some elem))) in
          match err with
          | Some err => Return (vt, Some err)
          | None => Return (vt, None)
          end
      | T_Map =>
          '(key, value, err) <- parseMapExpr expr ;;
          match err with
          | Some err => Return (vt, Some err)
          | None =>
              match DataTypeFromString key with
              | None => Return (vt, Some (ErrInvalidMapKeyType key expr))
              | Some keyDataType =>
                  let vt := set_Map vt
                    (Some (mkVarMapType keyDataType (Some emptyVarType))) in
                  let expr := value in
                  '(val, err) <-
                    ParseVarTypeExpr fuel schema expr emptyVarType ;;
                  let vt := set_Map vt
                    (Some (mkVarMapType keyDataType (Some val))) in
                  match err with
                  | Some err => Return (vt, Some err)
                  | None => Return (vt, None)
                  end
              end
          end
      | T_Unknown =>
          let structExpr := expr in
          match getMessageType schema structExpr with
          | (Some msg, true) =>
              let vt := set_Type vt T_Struct in
              let vt := set_Struct vt
                (Some (mkVarStructType structExpr (Some msg))) in
              Return (vt, None)
          | (_, _) => Return (vt, Some (ErrInvalidStruct structExpr))
          end
      | _ => Return (vt, None)
      end
  end.

(** [buildVarTypeExpr] dereferences [vt.List], [vt.List.Elem], [vt.Map],
    [vt.Map.Value] and [vt.Struct] without a test: a nil pointer there is a
    panic. *)
Fixpoint buildVarTypeExpr (vt : VarType) (expr : string) {struct vt}
  : exec string :=
  match vt with
  | mkVarType _ type list map struct =>
    match type with
    | T_Unknown => Return "<unknown>"
    | T_List =>
        match list with
        | Some (mkVarListType (Some elem)) =>
            s <- buildVarTypeExpr elem expr ;;
            Return (expr ++ "[]" ++ s)%string
        | _ => Panic
        end
    | T_Map =>
        match map with
        | Some (mkVarMapType key (Some value)) =>
            s <- buildVarTypeExpr value "" ;;
            Return (expr ++ "map<" ++ DataTypeToString key ++ ","
                      ++ s ++ ">")%string
        | _ => Panic
        end
    | T_Struct =>
        match struct with
        | Some s => Return (expr ++ Name s)%string
        | None => Panic
        end
    | _ => Return (expr ++ DataTypeToString type)%string
    end
  end.

(** [VarType.Parse]: the fuel is the length of the expression plus one,
    which is enough (theorem [ParseVarTypeExpr_terminates]). *)
Definition Parse (t : VarType) (schema : WebRPCSchema)
  : exec (VarType * option error) :=
  if (Expr t =? "")%string then Return (t, Some ErrEmptyExpr)
  else
    '(t, err) <-
      ParseVarTypeExpr (S (String.length (Expr t))) schema (Expr t) t ;;
    match err with
    | Some err => Return (t, Some err)
    | None =>
        s <- buildVarTypeExpr t "" ;;
        Return (set_Expr t s, None)
    end.

(** The operations of the specification: [parse] builds a fresh type
    expression from the raw text and parses it, [serialize] rebuilds the
    text of a type expression. *)
Definition parse (x : string) (schema : WebRPCSchema)
  : exec (VarType * option error) :=
  Parse (set_Expr emptyVarType x) schema.

Definition serialize (vt : VarType) : exec string := buildVarTypeExpr vt "".

(** No node of the tree is of kind Unknown, and every list and every map
    node holds its nested type. *)
Fixpoint concrete (vt : VarType) : bool :=
  match vt with
  | mkVarType _ type list map _ =>
    match type with
    | T_Unknown => false
    | T_List =>
        match list with
        | Some (mkVarListType (Some elem)) => concrete elem
        | _ => false
        end
    | T_Map =>
        match map with
        | Some (mkVarMapType _ (Some value)) => concrete value
        | _ => false
        end
    | _ => true
    end
  end.

(** The five ways in which [parseMapExpr] ends, on the text of the
    expression. *)
Inductive parseMapExpr_result (expr : string)
  : string * string * option error -> Prop :=
| PM_not_map :
    HasPrefix expr "map<" = false ->
    parseMapExpr_result expr ("", "", Some (ErrInvalidMapExpr expr))
| PM_not_closed (body : string) :
    expr = ("map<" ++ body)%string ->
    (forall contents : string, body <> (contents ++ ">")%string) ->
    parseMapExpr_result expr
      ("", "", Some (ErrInvalidMapSyntax ("<" ++ body)))
| PM_no_comma (contents : string) :
    expr = ("map<" ++ contents ++ ">")%string ->
    ~ Contains contents "," ->
    parseMapExpr_result expr ("", "", Some (ErrInvalidMapSyntax contents))
| PM_invalid_key (key value : string) :
    expr = ("map<" ++ key ++ "," ++ value ++ ">")%string ->
    ~ Contains key "," ->
    isValidVarKeyType key = false ->
    parseMapExpr_result expr
      ("", "", Some (ErrInvalidMapKey key (key ++ "," ++ value)))
| PM_key_value (key value : string) :
    expr = ("map<" ++ key ++ "," ++ value ++ ">")%string ->
    ~ Contains key "," ->
    isValidVarKeyType key = true ->
    parseMapExpr_result expr (key, value, None).

(** The descent of the parser: from an expression to the expressions its
    recursive calls are made on, through list elements and map values. *)
Inductive subexpr : string -> string -> Prop :=
| subexpr_here (expr : string) : subexpr expr expr
| subexpr_elem (expr sub : string) :
    expr <> "" ->
    exprDataType expr = T_List ->
    subexpr (TrimPrefix expr (DataTypeToString T_List)) sub ->
    subexpr expr sub
| subexpr_value (expr key value sub : string) :
    expr <> "" ->
    exprDataType expr = T_Map ->
    parseMapExpr expr = Return (key, value, None) ->
    subexpr value sub ->
    subexpr expr sub.

(** The errors that [ParseVarTypeExpr] raises itself on an expression, as
    opposed to those it hands over from a recursive call. *)
Inductive raises (schema : WebRPCSchema) : string -> error -> Prop :=
| raises_struct (expr : string) :
    expr <> "" ->
    exprDataType expr = T_Unknown ->
    (forall msg, getMessageType schema expr <> (Some msg, true)) ->
    raises schema expr (ErrInvalidStruct expr)
| raises_map (expr key value : string) (err : error) :
    expr <> "" ->
    exprDataType expr = T_Map ->
    parseMapExpr expr = Return (key, value, Some err) ->
    raises schema expr err.

(** The payload of each node is the one of its type and no other: a list
    holds its element, a map holds a key of [VarKeyDataTypes] and its value,
    a struct holds a message of the catalog under that message's name, and a
    scalar or a node that was only allocated holds nothing. *)
Fixpoint wellFormed (schema : WebRPCSchema) (vt : VarType) : Prop :=
  match vt with
  | mkVarType _ type list map struct =>
    match type with
    | T_List =>
        map = None /\ struct = None /\
        match list with
        | Some (mkVarListType (Some elem)) => wellFormed schema elem
        | _ => False
        end
    | T_Map =>
        list = None /\ struct = None /\
        match map with
        | Some (mkVarMapType key (Some value)) =>
            In key VarKeyDataTypes /\ wellFormed schema value
        | _ => False
        end
    | T_Struct =>
        list = None /\ map = None /\
        match struct with
        | Some (mkVarStructType name (Some msg)) =>
            In msg (Messages schema) /\ Message_Name msg = name
        | _ => False
        end
    | _ => list = None /\ map = None /\ struct = None
    end
  end.

End Schema.

(** ** The registry and a catalog to run the parser on *)

Module Registry.

(** Modelled from the spec: the tables of [data_type.go], which is not among
    the sources.  The registry is the closed set of scalar types with their
    canonical spellings, and the reverse table maps each of these spellings
    back to its type.  The parser reads the list marker and the map keyword
    from the table of spellings, at [T_List] and [T_Map]; [T_Unknown] and
    [T_Struct] have no spelling.  The facts of section [SchemaFacts] do not
    depend on these tables: they hold for every registry that meets the
    hypotheses stated there, also for one whose reverse table has the two
    markers. *)
Definition scalars : list (DataType * string) :=
  [ (T_Null, "null"); (T_Any, "any"); (T_Byte, "byte"); (T_Bool, "bool");
    (T_Uint, "uint"); (T_Uint8, "uint8"); (T_Uint16, "uint16");
    (T_Uint32, "uint32"); (T_Uint64, "uint64");
    (T_Int, "int"); (T_Int8, "int8"); (T_Int16, "int16");
    (T_Int32, "int32"); (T_Int64, "int64");
    (T_Float32, "float32"); (T_Float64, "float64");
    (T_String, "string"); (T_Timestamp, "timestamp") ]%string.

Definition markers : list (DataType * string) :=
  [ (T_Map, "map"); (T_List, "[]") ]%string.

Fixpoint lookupSpelling (tbl : list (DataType * string)) (t : DataType)
  : string :=
  match tbl with
  | [] => ""%string
  | (t', s) :: rest => if DataType_eqb t t' then s else lookupSpelling rest t
  end.

Fixpoint lookupType (tbl : list (DataType * string)) (s : string)
  : option DataType :=
  match tbl with
  | [] => None
  | (t, s') :: rest => if (s =? s')%string then Some t else lookupType rest s
  end.

Definition DataTypeToString (t : DataType) : string :=
  lookupSpelling (scalars ++ markers) t.

Definition DataTypeFromString (s : string) : option DataType :=
  lookupType scalars s.

(** A reverse table that is filled from the whole table of spellings, the
    two markers included: the other registry that meets the hypotheses of
    section [SchemaFacts]. *)
Definition DataTypeFromStringAll (s : string) : option DataType :=
  lookupType (scalars ++ markers) s.

End Registry.

Module Example.

(** The messages of the hello-webrpc example schema. *)
Record Message : Type := mkMessage {
  Message_Name : string;
  Message_Fields : list (string * string)
}.

Definition User : Message :=
  mkMessage "User"
    [ ("id", "uint64"); ("USERNAME", "string"); ("role", "Kind");
      ("meta", "map<string,any>"); ("created_at", "timestamp") ]%string.

Definition Page : Message := mkMessage "Page" [ ("num", "uint32") ]%string.

Definition catalog : WebRPCSchema Message := mkWebRPCSchema [User; Page].

Definition noMessages : WebRPCSchema Message := mkWebRPCSchema [].

(** A catalog with a message that has the name of a scalar type. *)
Definition shadowing : WebRPCSchema Message :=
  mkWebRPCSchema [mkMessage "uint32" []; User].

Definition parse (x : string) (schema : WebRPCSchema Message) :=
  parse Message_Name Registry.DataTypeFromString Registry.DataTypeToString
    x schema.

Definition serialize (vt : VarType Message) :=
  serialize Registry.DataTypeToString vt.

Definition parseMapExpr (expr : string) :=
  parseMapExpr Registry.DataTypeFromString Registry.DataTypeToString expr.

End Example.

(** * Properties *)

Unset Implicit Arguments.

Lemma DataType_eqb_eq (a b : DataType) : DataType_eqb a b = true <-> a = b.
Proof.
  unfold DataType_eqb. destruct (DataType_eq_dec a b); split; congruence.
Qed.

(** ** Facts on Go strings *)

Module GoStringFacts.

Import GoString.

Lemma app_nil_r (s : string) : (s ++ "")%string = s.
Proof. induction s as [|c s IH]; simpl; congruence. Qed.

Lemma app_assoc (a b c : string) :
  ((a ++ b) ++ c)%string = (a ++ b ++ c)%string.
Proof. induction a as [|x a IH]; simpl; congruence. Qed.

Lemma length_app (a b : string) :
  String.length (a ++ b) = (String.length a + String.length b)%nat.
Proof. induction a as [|x a IH]; simpl; congruence. Qed.

Lemma len_app (a b : string) : len (a ++ b) = len a + len b.
Proof. unfold len. rewrite length_app. lia. Qed.

Lemma len_nonneg (s : string) : 0 <= len s.
Proof. unfold len. lia. Qed.

Lemma len_nil : len "" = 0.
Proof. reflexivity. Qed.

Lemma len_cons (c : ascii) (s : string) : len (String c s) = 1 + len s.
Proof. unfold len. simpl String.length. lia. Qed.

Lemma take_app (a b : string) : take (String.length a) (a ++ b) = a.
Proof. induction a as [|x a IH]; simpl; [destruct b; reflexivity | congruence]. Qed.

Lemma drop_app (a b : string) : drop (String.length a) (a ++ b) = b.
Proof. induction a as [|x a IH]; simpl; auto. Qed.

Lemma take_drop (n : nat) (s : string) : (take n s ++ drop n s)%string = s.
Proof.
  revert s. induction n as [|n IH]; intros [|c s]; simpl; try reflexivity.
  now rewrite IH.
Qed.


Lemma length_drop (n : nat) (s : string) :
  String.length (drop n s) = (String.length s - n)%nat.
Proof.
  revert s. induction n as [|n IH]; intros [|c s]; simpl; auto.
Qed.

(** A slice within bounds returns. *)
Lemma slice_in_bounds (s : string) (lo hi : Z) :
  0 <= lo -> lo <= hi -> hi <= len s ->
  slice s lo hi = Return (take (Z.to_nat (hi - lo)) (drop (Z.to_nat lo) s)).
Proof.
  intros H1 H2 H3. unfold slice.
  destruct (Z.leb_spec 0 lo); [|lia].
  destruct (Z.leb_spec lo hi); [|lia].
  destruct (Z.leb_spec hi (len s)); [|lia].
  reflexivity.
Qed.

(** The middle of a concatenation, cut out by its offsets. *)
Lemma slice_app (a b c : string) :
  slice (a ++ b ++ c) (len a) (len a + len b) = Return b.
Proof.
  rewrite slice_in_bounds.
  - unfold len. rewrite Nat2Z.id.
    replace (Z.to_nat (Z.of_nat (String.length a) + Z.of_nat (String.length b)
                       - Z.of_nat (String.length a))) with (String.length b)
      by lia.
    now rewrite drop_app, take_app.
  - apply len_nonneg.
  - pose proof (len_nonneg b). lia.
  - rewrite !len_app. pose proof (len_nonneg c). lia.
Qed.

Lemma slice_from_app (a b : string) : slice_from (a ++ b) (len a) = Return b.
Proof.
  unfold slice_from. pose proof (slice_app a b "") as H.
  rewrite app_nil_r in H. rewrite len_app. exact H.
Qed.

Lemma slice_to_app (a b : string) : slice_to (a ++ b) (len a) = Return a.
Proof.
  unfold slice_to. pose proof (slice_app "" a b) as H. exact H.
Qed.

Lemma HasPrefix_nil (s : string) : HasPrefix s "" = true.
Proof. destruct s; reflexivity. Qed.

Lemma HasPrefix_app (p r : string) : HasPrefix (p ++ r) p = true.
Proof.
  unfold HasPrefix. induction p as [|c p IH]; simpl.
  - destruct r; reflexivity.
  - destruct (ascii_dec c c); [exact IH | congruence].
Qed.

Lemma HasPrefix_true (s p : string) :
  HasPrefix s p = true -> s = (p ++ drop (String.length p) s)%string.
Proof.
  unfold HasPrefix. revert s. induction p as [|c p IH]; intros s H.
  - destruct s; reflexivity.
  - destruct s as [|d s]; simpl in H; [discriminate|].
    destruct (ascii_dec c d) as [->|]; [|discriminate].
    simpl. f_equal. now apply IH.
Qed.

Lemma HasPrefix_length (s p : string) :
  HasPrefix s p = true -> (String.length p <= String.length s)%nat.
Proof.
  intros H. apply HasPrefix_true in H. rewrite H, length_app. lia.
Qed.

Lemma TrimPrefix_app (p r : string) : TrimPrefix (p ++ r) p = r.
Proof. unfold TrimPrefix. now rewrite HasPrefix_app, drop_app. Qed.

(** Every string is empty or ends in a last byte. *)
Lemma snoc_view (s : string) :
  s = "" \/ exists (init : string) (c : ascii), s = (init ++ String c "")%string.
Proof.
  induction s as [|x s IH]; [now left | right].
  destruct IH as [-> | (init & c & ->)].
  - now exists "", x.
  - now exists (String x init), c.
Qed.



Lemma Contains_app_l (p s t : string) : Contains s t -> Contains (p ++ s) t.
Proof.
  intros (a & b & ->). exists (p ++ a)%string, b. now rewrite app_assoc.
Qed.

Lemma Contains_app_r (s q t : string) : Contains s t -> Contains (s ++ q) t.
Proof.
  intros (a & b & ->). exists a, (b ++ q)%string. now rewrite !app_assoc.
Qed.

Lemma Contains_trans (s t u : string) :
  Contains s t -> Contains t u -> Contains s u.
Proof.
  intros (a & b & ->) H. now apply Contains_app_l, Contains_app_r.
Qed.

Lemma not_Contains_nil (t : string) : t <> "" -> ~ Contains "" t.
Proof.
  intros Ht (a & b & H). destruct a; [|discriminate].
  destruct t; [congruence | discriminate].
Qed.

Lemma not_Contains_cons (c d : ascii) (s : string) :
  c <> d -> ~ Contains s (String d "") -> ~ Contains (String c s) (String d "").
Proof.
  intros Hc Hs (a & b & H). destruct a as [|x a]; simpl in H.
  - congruence.
  - injection H as _ H. apply Hs. now exists a, b.
Qed.

(** [strings.Index] of a single byte: either the byte does not occur and the
    result is [-1], or the string splits at the first occurrence. *)
Lemma Index_from_byte (d : ascii) (s : string) (i : Z) :
  (Index_from i s (String d "") = -1 /\ ~ Contains s (String d "")) \/
  (exists k v : string,
      s = (k ++ String d v)%string /\ ~ Contains k (String d "") /\
      Index_from i s (String d "") = i + len k).
Proof.
  revert i. induction s as [|c s IH]; intros i.
  - left. split; [reflexivity | now apply not_Contains_nil].
  - cbn [Index_from]. unfold HasPrefix. cbn [prefix].
    destruct (ascii_dec d c) as [<-|Hdc].
    + right. exists "", s.
      assert (prefix "" s = true) as -> by (destruct s; reflexivity).
      repeat split; [now apply not_Contains_nil | unfold len; simpl; lia].
    + destruct (IH (i + 1)) as [[E N] | (k & v & -> & N & E)].
      * left. split; [exact E | apply not_Contains_cons; auto].
      * right. exists (String c k), v.
        repeat split; [apply not_Contains_cons; auto |].
        rewrite E, len_cons. lia.
Qed.

Lemma Contains_byte_here (d : ascii) (v : string) :
  Contains (String d v) (String d "").
Proof. now exists "", v. Qed.

(** The split of a string at the first occurrence of a byte is unique. *)
Lemma first_byte_split_unique (d : ascii) (k k' v v' : string) :
  ~ Contains k (String d "") -> ~ Contains k' (String d "") ->
  (k ++ String d v)%string = (k' ++ String d v')%string ->
  k = k' /\ v = v'.
Proof.
  revert k'. induction k as [|c k IH]; intros [|c' k'] N N' H; simpl in H.
  - injection H as ->. auto.
  - injection H as <- _. exfalso. apply N'. apply Contains_byte_here.
  - injection H as -> _. exfalso. apply N. apply Contains_byte_here.
  - injection H as -> H. apply IH in H as [-> ->]; auto.
    + intros C. apply N. now apply (Contains_app_l (String c' "")).
    + intros C. apply N'. now apply (Contains_app_l (String c' "")).
Qed.

(** A byte that [strings.Index] does not find does not occur. *)
Lemma not_Contains_by_Index (d : ascii) (s : string) :
  Index s (String d "") = -1 -> ~ Contains s (String d "").
Proof.
  unfold Index. intros H.
  destruct (Index_from_byte d s 0) as [[_ N] | (k & v & _ & _ & E)];
    [exact N|].
  rewrite E in H. pose proof (len_nonneg k). lia.
Qed.

End GoStringFacts.

(** ** Facts on the parser, for any registry and any catalog *)

Section SchemaFacts.

Import GoString GoStringFacts.

Variable Message : Type.
Variable Message_Name : Message -> string.
Variable DataTypeFromString : string -> option DataType.
Variable DataTypeToString : DataType -> string.

(** What the facts below ask of the registry: the list marker and the map
    keyword are the spellings of [T_List] and [T_Map]; the reverse table maps
    a spelling back to the type that has it; no spelling stands for
    [T_Struct]. *)
Hypothesis list_marker : DataTypeToString T_List = "[]".
Hypothesis map_keyword : DataTypeToString T_Map = "map".
Hypothesis from_string_sound :
  forall (s : string) (t : DataType),
    DataTypeFromString s = Some t -> DataTypeToString t = s.
Hypothesis struct_unspelled :
  forall s : string, DataTypeFromString s <> Some T_Struct.
Hypothesis empty_unspelled : DataTypeFromString "" = None.

Local Abbreviation isListExpr := (isListExpr DataTypeToString).
Local Abbreviation isMapExpr := (isMapExpr DataTypeToString).
Local Abbreviation isValidVarKeyType := (isValidVarKeyType DataTypeFromString).
Local Abbreviation exprDataType :=
  (exprDataType DataTypeFromString DataTypeToString).
Local Abbreviation parseMapExpr :=
  (parseMapExpr DataTypeFromString DataTypeToString).
Local Abbreviation ParseVarTypeExpr :=
  (ParseVarTypeExpr Message_Name DataTypeFromString DataTypeToString).
Local Abbreviation buildVarTypeExpr := (buildVarTypeExpr DataTypeToString).
Local Abbreviation Parse :=
  (Parse Message_Name DataTypeFromString DataTypeToString).
Local Abbreviation parse :=
  (parse Message_Name DataTypeFromString DataTypeToString).
Local Abbreviation serialize := (serialize DataTypeToString).
Local Abbreviation parseMapExpr_result :=
  (parseMapExpr_result DataTypeFromString).
Local Abbreviation subexpr := (subexpr DataTypeFromString DataTypeToString).
Local Abbreviation raises :=
  (raises Message_Name DataTypeFromString DataTypeToString).
Local Abbreviation wellFormed := (wellFormed Message_Name).
Local Abbreviation VarType := (VarType Message).
Local Abbreviation WebRPCSchema := (WebRPCSchema Message).

Lemma isListExpr_prefix (expr : string) :
  isListExpr expr = HasPrefix expr "[]".
Proof. unfold isListExpr. now rewrite list_marker. Qed.

Lemma isMapExpr_prefix (expr : string) :
  isMapExpr expr = HasPrefix expr "map<".
Proof. unfold isMapExpr. now rewrite map_keyword. Qed.

Lemma snoc_inj (a b : string) (c d : ascii) :
  (a ++ String c "")%string = (b ++ String d "")%string -> a = b /\ c = d.
Proof.
  revert b. induction a as [|x a IH]; intros [|y b] H; simpl in H.
  - injection H as ->. auto.
  - injection H as -> H. destruct b; discriminate.
  - injection H as -> H. destruct a; discriminate.
  - injection H as -> H. apply IH in H as [-> ->]. auto.
Qed.

(** [parseMapExpr] returns on every expression, in one of the five ways. *)
Lemma parseMapExpr_returns (expr : string) :
  exists r, parseMapExpr expr = Return r /\ parseMapExpr_result expr r.
Proof.
  unfold parseMapExpr. rewrite isMapExpr_prefix, map_keyword.
  destruct (HasPrefix expr "map<") eqn:Hm; cbn [negb].
  2:{ eexists; split; [reflexivity | now apply PM_not_map]. }
  apply HasPrefix_true in Hm. cbn [String.length] in Hm.
  remember (drop 4 expr) as body eqn:Hb. clear Hb. subst expr.
  change ("map<" ++ body)%string with ("map" ++ String "<" body)%string.
  rewrite slice_from_app. cbn [bind].
  change (slice (String "<" body) 0 1)
    with (slice ("" ++ "<" ++ body) (len "") (len "" + len "<")).
  rewrite slice_app. cbn [bind]. cbn [String.eqb Ascii.eqb Bool.eqb negb].
destruct (snoc_view body) as [-> | (init & c & ->)].
  { eexists; split; [reflexivity |].
    apply PM_not_closed with (body := ""); [reflexivity |].
    intros [|x contents]; discriminate. }
  change (String "<" (init ++ String c ""))
    with (String "<" init ++ String c "")%string.
  replace (len (String "<" init ++ String c "") - 1)
    with (len (String "<" init)) by (rewrite len_app, (len_cons c ""), len_nil; lia).
  rewrite slice_from_app. cbn [bind].
  destruct (String.eqb_spec (String c "") ">") as [Hc | Hc]; cbn [negb].
  2:{ eexists; split; [reflexivity |].
      apply PM_not_closed with (body := (init ++ String c "")%string);
        [reflexivity |].
      intros contents E. apply snoc_inj in E as [_ ->]. now apply Hc. }
  injection Hc as ->.
  change (slice (String "<" init ++ ">") 1 (len (String "<" init)))
    with (slice ("<" ++ init ++ ">") (len "<") (len (String "<" init))).
  replace (len (String "<" init)) with (len "<" + len init)
    by (rewrite !len_cons, len_nil; lia).
  rewrite slice_app. cbn [bind]. unfold Index.
  destruct (Index_from_byte "," init 0) as [[E N] | (k & v & -> & N & E)];
    rewrite E.
  { eexists; split; [reflexivity |]. now apply PM_no_comma. }
  destruct (Z.ltb_spec (0 + len k) 0) as [Hneg | _];
    [pose proof (len_nonneg k); lia |].
  change (slice (k ++ String "," v) 0 (0 + len k))
    with (slice ("" ++ k ++ String "," v) (len "") (len "" + len k)).
  rewrite slice_app. cbn [bind].
  replace (k ++ String "," v)%string with ((k ++ ",") ++ v)%string
    by (now rewrite app_assoc).
  replace (0 + len k + 1) with (len (k ++ ","))
    by (rewrite len_app, (len_cons "," ""), len_nil; lia).
  rewrite slice_from_app. cbn [bind]. rewrite app_assoc.
  assert (("map" ++ String "<" (k ++ "," ++ v) ++ ">")%string
          = ("map<" ++ k ++ "," ++ v ++ ">")%string) as Hexpr
    by (simpl; now rewrite !app_assoc).
  destruct (isValidVarKeyType k) eqn:Hk; cbn [negb];
    eexists; (split; [reflexivity |]).
  - now apply PM_key_value.
  - now apply PM_invalid_key.
Qed.

(** The type the parser's switch runs on: it is [T_List] only for an
    expression that starts with the list marker. *)
Lemma dataType_list (expr : string) :
  exprDataType expr = T_List ->
  HasPrefix expr "[]" = true.
Proof.
  unfold exprDataType.
  destruct (DataTypeFromString expr) as [d|] eqn:Hd.
  - intros ->. apply from_string_sound in Hd. rewrite list_marker in Hd.
    now subst expr.
  - rewrite isListExpr_prefix. destruct (HasPrefix expr "[]"); [reflexivity|].
    destruct (isMapExpr expr); discriminate.
Qed.

Lemma dataType_struct (expr : string) :
  exprDataType expr <> T_Struct.
Proof.
  unfold exprDataType.
  destruct (DataTypeFromString expr) as [d|] eqn:Hd.
  - intros ->. now apply struct_unspelled in Hd.
  - destruct (isListExpr expr); [discriminate|].
    destruct (isMapExpr expr); discriminate.
Qed.

(** The list branch recurses on a string that is two bytes shorter. *)
Lemma list_step_shorter (expr : string) :
  HasPrefix expr "[]" = true ->
  (String.length (TrimPrefix expr "[]") + 2 = String.length expr)%nat.
Proof.
  intros H. apply HasPrefix_true in H. rewrite H at 1 2.
  rewrite TrimPrefix_app, H, length_app, length_drop, length_app.
  cbn [String.length]. rewrite length_drop. lia.
Qed.

(** The map branch recurses on a string that is at least six bytes
    shorter. *)
Lemma map_step_shorter (expr key value : string) :
  parseMapExpr expr = Return (key, value, None) ->
  (String.length value + 6 <= String.length expr)%nat.
Proof.
  intros H. destruct (parseMapExpr_returns expr) as (r & E & C).
  rewrite E in H. injection H as ->. inversion C; subst.
  rewrite !length_app. cbn [String.length]. lia.
Qed.

(** With more fuel than the expression has bytes, [ParseVarTypeExpr]
    returns. *)
Lemma ParseVarTypeExpr_returns (fuel : nat) (schema : WebRPCSchema)
  (expr : string) (vt : VarType) :
  (String.length expr < fuel)%nat ->
  exists r, ParseVarTypeExpr fuel schema expr vt = Return r.
Proof.
  revert expr vt. induction fuel as [|fuel IH]; intros expr vt Hlen; [lia|].
  cbn [ParseVarTypeExpr].
  destruct (expr =? "")%string; [eexists; reflexivity|].
  cbn [Type_ set_Type set_Expr].
  pose proof (dataType_list expr) as Hl.
  destruct (exprDataType expr); try (eexists; reflexivity).
  - (* struct lookup *)
    destruct (getMessageType Message_Name schema expr) as [[msg|] [|]];
      eexists; reflexivity.
  - (* list *)
    specialize (Hl eq_refl). rewrite list_marker.
    pose proof (list_step_shorter _ Hl) as Hs.
    destruct (IH (TrimPrefix expr "[]") (emptyVarType Message))
      as ([elem err] & E); [lia|].
    rewrite E. cbn [bind]. destruct err; eexists; reflexivity.
  - (* map *)
    destruct (parseMapExpr_returns expr) as ([[key value] err] & E & C).
    rewrite E. cbn [bind].
    destruct err as [err|]; [eexists; reflexivity|].
    destruct (DataTypeFromString key) as [keyDataType|];
      [|eexists; reflexivity].
    pose proof (map_step_shorter _ _ _ E) as Hs.
    destruct (IH value (emptyVarType Message)) as ([val err] & E'); [lia|].
    rewrite E'. cbn [bind]. destruct err; eexists; reflexivity.
Qed.

(** A key that [parseMapExpr] returns is in the registry, with a type of
    [VarKeyDataTypes]; this is read off the code, whatever the registry. *)
Lemma isValidVarType_loop_In (dt : DataType) (allowedList : list DataType) :
  isValidVarType_loop dt allowedList = true -> In dt allowedList.
Proof.
  induction allowedList as [|t rest IH]; simpl; [discriminate|].
  destruct (DataType_eqb dt t) eqn:E; [|auto].
  apply DataType_eqb_eq in E. auto.
Qed.

Lemma isValidVarKeyType_true (s : string) :
  isValidVarKeyType s = true ->
  exists dt, DataTypeFromString s = Some dt /\ In dt VarKeyDataTypes.
Proof.
  unfold isValidVarKeyType, isValidVarType.
  destruct (DataTypeFromString s) as [dt|]; [|discriminate].
  intros H. exists dt. split; [reflexivity | now apply isValidVarType_loop_In].
Qed.

Lemma parseMapExpr_key_valid (expr key value : string) :
  parseMapExpr expr = Return (key, value, None) ->
  isValidVarKeyType key = true.
Proof.
  unfold parseMapExpr. intros H.
  repeat match type of H with
         | (if ?b then _ else _) = _ =>
             destruct b eqn:?; try discriminate
         | bind ?m _ = _ =>
             destruct m eqn:?; cbn [bind] in H; try discriminate
         end.
  injection H as <- _.
  match goal with
  | E : negb (isValidVarKeyType _) = false |- _ =>
      now apply negb_false_iff in E
  end.
Qed.









(** C9: [ParseVarTypeExpr] terminates on every expression.  The list branch
    recurses on a strictly shorter string, the map branch recurses on the
    value, which is strictly shorter than the map expression, and a fuel
    above the length of the expression is never used up. *)
Theorem ParseVarTypeExpr_terminates (schema : WebRPCSchema) (expr : string)
  (vt : VarType) :
  (exprDataType expr = T_List ->
   (String.length (TrimPrefix expr (DataTypeToString T_List))
    < String.length expr)%nat) /\
  (forall key value : string,
      parseMapExpr expr = Return (key, value, None) ->
      (String.length value < String.length expr)%nat) /\
  (forall fuel : nat,
      (String.length expr < fuel)%nat ->
      exists r, ParseVarTypeExpr fuel schema expr vt = Return r).
Proof.
  split; [|split].
  - intros H. apply dataType_list, list_step_shorter in H.
    rewrite list_marker. lia.
  - intros key value H. apply map_step_shorter in H. lia.
  - intros fuel H. now apply ParseVarTypeExpr_returns.
Qed.

(** C10: the error for a map key that is not in the registry, which
    [ParseVarTypeExpr] raises after [parseMapExpr], cannot occur: a key that
    [parseMapExpr] returns without error is in [DataTypeFromString], and no
    run of [ParseVarTypeExpr] ends in that error. *)
Theorem map_key_type_error_unreachable :
  (forall expr key value : string,
      parseMapExpr expr = Return (key, value, None) ->
      exists dt, DataTypeFromString key = Some dt) /\
  (forall (fuel : nat) (schema : WebRPCSchema) (expr : string)
          (vt vt' : VarType) (err : error),
      ParseVarTypeExpr fuel schema expr vt = Return (vt', Some err) ->
      forall key e : string, err <> ErrInvalidMapKeyType key e).
Proof.
  split.
  - intros expr key value H. apply parseMapExpr_key_valid in H.
    apply isValidVarKeyType_true in H as (dt & H & _). now exists dt.
  - induction fuel as [|fuel IH]; intros schema expr vt vt' err H key e;
      [discriminate|].
    cbn [ParseVarTypeExpr] in H.
    destruct (expr =? "")%string; [discriminate|].
    cbn [Type_ set_Type set_Expr] in H.
    destruct (exprDataType expr); try discriminate.
    + destruct (getMessageType Message_Name schema expr) as [[msg|] [|]];
        inversion H; subst; discriminate.
    + destruct (ParseVarTypeExpr fuel schema _ _) as [[elem e']| |] eqn:E;
        cbn [bind] in H; try discriminate.
      destruct e'; inversion H; subst. now apply (IH _ _ _ _ _ E).
    + destruct (parseMapExpr expr) as [[[k v] e']| |] eqn:E;
        cbn [bind] in H; try discriminate.
      destruct e' as [e'|].
      { injection H as _ <-. intros ->. revert E.
        unfold parseMapExpr.
        repeat match goal with
               | |- (if ?b then _ else _) = _ -> _ => destruct b
               | |- bind ?m _ = _ -> _ => destruct m; cbn [bind]
               end; discriminate. }
      apply parseMapExpr_key_valid in E.
      apply isValidVarKeyType_true in E as (dt & E & _). rewrite E in H.
      destruct (ParseVarTypeExpr fuel schema _ _) as [[val e']| |] eqn:E';
        cbn [bind] in H; try discriminate.
      destruct e'; inversion H; subst. now apply (IH _ _ _ _ _ E').
Qed.

Lemma closed_contents_eq (key value contents : string) :
  (key ++ "," ++ value ++ ">")%string = (contents ++ ">")%string ->
  contents = (key ++ "," ++ value)%string.
Proof.
  intros E.
  replace (key ++ "," ++ value ++ ">")%string
    with ((key ++ "," ++ value) ++ ">")%string in E
    by now rewrite !app_assoc.
  now apply snoc_inj in E as [<- _].
Qed.



Lemma parseMapExpr_split (key value : string) :
  ~ Contains key "," ->
  parseMapExpr ("map<" ++ key ++ "," ++ value ++ ">")
  = if isValidVarKeyType key then Return (key, value, None)
    else Return ("", "", Some (ErrInvalidMapKey key (key ++ "," ++ value))).
Proof.
  intros Hc.
  destruct (parseMapExpr_returns ("map<" ++ key ++ "," ++ value ++ ">"))
    as (r & -> & C).
  assert (forall k v : string,
             ~ Contains k "," ->
             (key ++ "," ++ value ++ ">")%string = (k ++ "," ++ v ++ ">")%string ->
             k = key /\ v = value) as Hkv.
  { intros k v N E.
    apply (first_byte_split_unique "," key k (value ++ ">") (v ++ ">")) in E
      as [<- E]; auto.
    apply snoc_inj in E as [<- _]. auto. }
  inversion C as [Hp | b E Hb' | c E N | k v E N Hk | k v E N Hk]; subst.
  - now rewrite (HasPrefix_app "map<" _) in Hp.
  - injection E as <-. destruct (Hb' (key ++ "," ++ value)%string).
    now rewrite !app_assoc.
  - injection E as E. exfalso. apply N.
    apply closed_contents_eq in E as ->. exists key, value. reflexivity.
  - injection E as E. apply Hkv in E as [-> ->]; auto. now rewrite Hk.
  - injection E as E. apply Hkv in E as [-> ->]; auto. now rewrite Hk.
Qed.

(** C5: an expression that [parseMapExpr] accepts is the map marker, the
    key, a comma, the value and a closing bracket that is its last byte; the
    key has no comma, so it ends at the first comma of the contents and the
    value is all that follows; and the key is the spelling of [T_String] or
    of an integer type. *)
Theorem map_expr_shape (expr key value : string) :
  parseMapExpr expr = Return (key, value, None) ->
  expr = ("map<" ++ key ++ "," ++ value ++ ">")%string /\
  ~ Contains key "," /\
  exists dt : DataType,
    DataTypeFromString key = Some dt /\ DataTypeToString dt = key /\
    (dt = T_String \/ In dt VarIntegerDataTypes).
Proof.
  intros H. pose proof (parseMapExpr_key_valid _ _ _ H) as Hk.
  destruct (parseMapExpr_returns expr) as (r & E & C).
  rewrite E in H. injection H as ->.
  inversion C as [ | | | | k v Hexpr N _]; subst.
  split; [reflexivity | split; [exact N|]].
  apply isValidVarKeyType_true in Hk as (dt & Hdt & Hin).
  exists dt. split; [exact Hdt | split; [now apply from_string_sound|]].
  destruct Hin as [<- | Hin]; [now left | now right].
Qed.

(** [getMessageType] finds the first message of the catalog that has the
    name, compared byte for byte. *)
Lemma getMessageType_find (schema : WebRPCSchema) (structExpr : string) :
  getMessageType Message_Name schema structExpr
  = match find (fun msg => (structExpr =? Message_Name msg)%string)
                (Messages schema) with
    | Some msg => (Some msg, true)
    | None => (None, false)
    end.
Proof.
  unfold getMessageType.
  induction (Messages schema) as [|msg rest IH]; simpl; [reflexivity|].
  now destruct (structExpr =? Message_Name msg)%string.
Qed.

(** C6: the lookup in the registry comes before the lookup in the catalog.
    For every catalog, also one with a message of that name, the spelling of
    a scalar type parses to that type, with no payload and with the spelling
    as its text; [ParseVarTypeExpr] returns it with fuel for one call, that
    is, without recursing. *)
Theorem primitive_lookup_first (schema : WebRPCSchema) (s : string)
  (t : DataType) :
  DataTypeFromString s = Some t ->
  kindOf t = Primitive ->
  parse s schema = Return (mkVarType s t None None None, None) /\
  forall vt : VarType,
    ParseVarTypeExpr 1 schema s vt = Return (set_Type (set_Expr vt s) t, None).
Proof.
  intros Hs Hk.
  assert (s <> "") as Hne by (intros ->; congruence).
  assert (forall (fuel : nat) (vt : VarType),
             ParseVarTypeExpr (S fuel) schema s vt
             = Return (set_Type (set_Expr vt s) t, None)) as Hstep.
  { intros fuel vt. cbn [ParseVarTypeExpr].
    destruct (String.eqb_spec s ""); [contradiction|].
    unfold exprDataType. rewrite Hs. cbn [Type_ set_Type].
    destruct t; try discriminate; reflexivity. }
  split; [|apply Hstep].
  unfold parse, Parse. cbn [Expr set_Expr].
  destruct (String.eqb_spec s ""); [contradiction|].
  rewrite Hstep. cbn [bind].
  apply from_string_sound in Hs.
  destruct t; try discriminate; cbn; now rewrite Hs.
Qed.






(** ** The canonical text of a parse without unknown nodes *)

Lemma exprDataType_scalar (expr : string) :
  kindOf (exprDataType expr) = Primitive ->
  DataTypeFromString expr = Some (exprDataType expr).
Proof.
  unfold exprDataType.
  destruct (DataTypeFromString expr); [reflexivity|].
  destruct (isListExpr expr); [discriminate|].
  destruct (isMapExpr expr); discriminate.
Qed.

Lemma concrete_set_Expr (t : VarType) (s : string) :
  concrete (set_Expr t s) = concrete t.
Proof. destruct t; reflexivity. Qed.

Lemma buildVarTypeExpr_set_Expr (t : VarType) (s e : string) :
  buildVarTypeExpr (set_Expr t s) e = buildVarTypeExpr t e.
Proof. destruct t; reflexivity. Qed.

Lemma ParseVarTypeExpr_Expr (fuel : nat) (schema : WebRPCSchema)
  (expr : string) (vt vt' : VarType) (err : option error) :
  ParseVarTypeExpr fuel schema expr vt = Return (vt', err) ->
  expr <> "" -> Expr vt' = expr.
Proof.
  destruct fuel as [|fuel]; [discriminate|].
  cbn [ParseVarTypeExpr]. intros H Hne.
  destruct (String.eqb_spec expr ""); [contradiction|].
  cbn [Type_ set_Type set_Expr] in H.
  destruct (exprDataType expr); try (injection H as <- _; reflexivity).
  - destruct (getMessageType Message_Name schema expr) as [[msg|] [|]];
      injection H as <- _; reflexivity.
  - destruct (ParseVarTypeExpr fuel schema _ _) as [[elem e]| |];
      cbn [bind] in H; try discriminate.
    destruct e; injection H as <- _; reflexivity.
  - destruct (parseMapExpr expr) as [[[key value] e]| |];
      cbn [bind] in H; try discriminate.
    destruct e; [injection H as <- _; reflexivity|].
    destruct (DataTypeFromString key); [|injection H as <- _; reflexivity].
    destruct (ParseVarTypeExpr fuel schema _ _) as [[val e]| |];
      cbn [bind] in H; try discriminate.
    destruct e; injection H as <- _; reflexivity.
Qed.

Lemma ParseVarTypeExpr_empty (fuel : nat) (schema : WebRPCSchema)
  (vt vt' : VarType) (err : option error) :
  ParseVarTypeExpr fuel schema "" vt = Return (vt', err) ->
  vt' = vt /\ err = None.
Proof.
  destruct fuel; [discriminate|]. cbn. intros [= <- <-]. auto.
Qed.

(** When the parse of an expression leaves no unknown node, the serializer
    gives the expression back. *)
Lemma canonical_text (fuel : nat) (schema : WebRPCSchema) (expr : string)
  (vt vt' : VarType) :
  ParseVarTypeExpr fuel schema expr vt = Return (vt', None) ->
  expr <> "" ->
  concrete vt' = true ->
  buildVarTypeExpr vt' "" = Return expr.
Proof.
  revert expr vt vt'. induction fuel as [|fuel IH];
    intros expr vt vt' H Hne Hc; [discriminate|].
  cbn [ParseVarTypeExpr] in H.
  destruct (String.eqb_spec expr ""); [contradiction|].
  cbn [Type_ set_Type set_Expr] in H.
  pose proof (exprDataType_scalar expr) as Hsc.
  pose proof (dataType_list expr) as Hl.
  pose proof (dataType_struct expr) as Hs.
  destruct (exprDataType expr) eqn:Hd;
    try (injection H as <-; specialize (Hsc eq_refl);
         apply from_string_sound in Hsc; cbn; now rewrite Hsc).
  - destruct (getMessageType Message_Name schema expr) as [[msg|] [|]];
      inversion H; subst; reflexivity.
  - specialize (Hl eq_refl). rewrite list_marker in H.
    apply HasPrefix_true in Hl. cbn [String.length] in Hl.
    remember (drop 2 expr) as rest eqn:Hr. clear Hr Hd Hsc Hs. subst expr.
    rewrite TrimPrefix_app in H.
    destruct (ParseVarTypeExpr fuel schema rest _) as [[elem e]| |] eqn:E;
      cbn [bind] in H; try discriminate.
    destruct e; inversion H; subst. cbn in Hc.
    assert (rest <> "") as Hrest.
    { intros ->. apply ParseVarTypeExpr_empty in E as [-> _]. discriminate. }
    cbn. rewrite (IH _ _ _ E Hrest Hc). reflexivity.
  - destruct (parseMapExpr expr) as [[[key value] e]| |] eqn:Em;
      cbn [bind] in H; try discriminate.
    destruct e; [inversion H|].
    destruct (map_expr_shape _ _ _ Em) as (Hexpr & _ & dt & Hdt & Hsp & _).
    rewrite Hdt in H.
    destruct (ParseVarTypeExpr fuel schema value _) as [[val e]| |] eqn:E;
      cbn [bind] in H; try discriminate.
    destruct e; inversion H; subst vt'. cbn in Hc.
    assert (value <> "") as Hvalue.
    { intros ->. apply ParseVarTypeExpr_empty in E as [-> _]. discriminate. }
    cbn. rewrite (IH _ _ _ E Hvalue Hc). cbn [bind]. rewrite Hsp, Hexpr.
    reflexivity.
  - congruence.
Qed.

(** For an input whose parse has no unknown node, the canonical text is the
    input, and parsing the canonical text gives the same type expression. *)
Lemma concrete_parse_round_trip (x : string) (schema : WebRPCSchema)
  (vt : VarType) :
  parse x schema = Return (vt, None) ->
  concrete vt = true ->
  Expr vt = x /\ serialize vt = Return x /\
  parse (Expr vt) schema = Return (vt, None).
Proof.
  intros H Hc. pose proof H as H0.
  unfold parse, Parse in H. cbn [Expr set_Expr] in H.
  destruct (String.eqb_spec x "") as [|Hne]; [discriminate|].
  destruct (ParseVarTypeExpr _ schema x _) as [[t1 err]| |] eqn:E;
    cbn [bind] in H; try discriminate.
  destruct err; [discriminate|].
  destruct (buildVarTypeExpr t1 "") as [s| |] eqn:B;
    cbn [bind] in H; try discriminate.
  injection H as <-. rewrite concrete_set_Expr in Hc.
  rewrite (canonical_text _ _ _ _ _ E Hne Hc) in B. injection B as <-.
  assert (Expr (set_Expr t1 x) = x) as He by reflexivity.
  split; [exact He | split].
  - unfold serialize. rewrite buildVarTypeExpr_set_Expr.
    now apply (canonical_text _ _ _ _ _ E).
  - now rewrite He.
Qed.

(** ** Further properties: the quoted value *)

Lemma len_dquote : len dquote = 1.
Proof. reflexivity. Qed.

(** [UnmarshalJSON] on a quoted value, step by step. *)
Lemma UnmarshalJSON_quoted_value (t : VarType) (s : string) :
  s <> "" ->
  UnmarshalJSON t (dquote ++ s ++ dquote) = Return (set_Expr t s, None).
Proof.
  intros Hs. unfold UnmarshalJSON.
  assert (0 < len s) as Hlen.
  { destruct s as [|c s]; [congruence|]. rewrite len_cons.
    pose proof (len_nonneg s). lia. }
  assert (len (dquote ++ s ++ dquote) = 2 + len s) as Hb
    by (rewrite !len_app, len_dquote; lia).
  destruct (Z.leb_spec (len (dquote ++ s ++ dquote)) 2) as [|_]; [lia|].
  change (slice (dquote ++ s ++ dquote) 0 1)
    with (slice ("" ++ dquote ++ s ++ dquote) (len "") (len "" + len dquote)).
  rewrite slice_app. cbn [bind]. rewrite String.eqb_refl. cbn [negb].
  replace (len (dquote ++ s ++ dquote) - 1) with (len (dquote ++ s))
    by (rewrite Hb, len_app, len_dquote; lia).
  rewrite <- (app_assoc dquote s dquote) at 1.
  rewrite slice_from_app. cbn [bind]. rewrite String.eqb_refl. cbn [negb].
  rewrite <- len_dquote at 1. rewrite slice_from_app. cbn [bind].
  replace (len (s ++ dquote) - 1) with (len s)
    by (rewrite len_app, len_dquote; lia).
  rewrite slice_to_app. reflexivity.
Qed.

(** What [UnmarshalJSON] returns, on every input. *)
Lemma UnmarshalJSON_cases (t : VarType) (b : string) :
  (len b <= 2 /\ UnmarshalJSON t b = Return (t, Some ErrJSONEmpty)) \/
  (2 < len b /\ UnmarshalJSON t b = Return (t, Some ErrJSONString) /\
   forall s : string, b <> (dquote ++ s ++ dquote)%string) \/
  (exists s : string,
      s <> "" /\ b = (dquote ++ s ++ dquote)%string /\
      UnmarshalJSON t b = Return (set_Expr t s, None)).
Proof.
  destruct (Z.leb_spec (len b) 2) as [Hle | Hgt].
  { left. split; [exact Hle|]. unfold UnmarshalJSON.
    destruct (Z.leb_spec (len b) 2); [reflexivity | lia]. }
  right.
  destruct b as [|c b]; [rewrite len_nil in Hgt; lia|].
  destruct (snoc_view b) as [-> | (s & d & ->)];
    [rewrite len_cons, len_nil in Hgt; lia|].
  assert (s <> "") as Hs.
  { intros ->. cbn [append] in Hgt. rewrite !len_cons, len_nil in Hgt. lia. }
  destruct (ascii_dec c (ascii_of_nat 34)) as [-> | Hc].
  - destruct (ascii_dec d (ascii_of_nat 34)) as [-> | Hd].
    + right. exists s. split; [exact Hs | split; [reflexivity|]].
      now apply UnmarshalJSON_quoted_value.
    + left. split; [exact Hgt | split].
      * unfold UnmarshalJSON.
        destruct (Z.leb_spec (len (String (ascii_of_nat 34) (s ++ String d "")))
                    2) as [|_]; [lia|].
        change (slice (String (ascii_of_nat 34) (s ++ String d "")) 0 1)
          with (slice ("" ++ dquote ++ s ++ String d "")
                  (len "") (len "" + len dquote)).
        rewrite slice_app. cbn [bind]. rewrite String.eqb_refl. cbn [negb].
        change (String (ascii_of_nat 34) (s ++ String d ""))
          with ((dquote ++ s) ++ String d "")%string.
        replace (len ((dquote ++ s) ++ String d "") - 1)
          with (len (dquote ++ s))
          by (rewrite (len_app (dquote ++ s)), (len_cons d ""), len_nil; lia).
        rewrite slice_from_app. cbn [bind].
        destruct (String.eqb_spec (String d "") dquote) as [E|_];
          [injection E as ->; contradiction | reflexivity].
      * intros s' E.
        change (String (ascii_of_nat 34) (s ++ String d ""))
          with (dquote ++ s ++ String d "")%string in E.
        rewrite <- !app_assoc in E. apply snoc_inj in E as [_ ->].
        contradiction.
  - left. split; [exact Hgt | split].
    + unfold UnmarshalJSON.
      destruct (Z.leb_spec (len (String c (s ++ String d ""))) 2) as [|_];
        [lia|].
      change (slice (String c (s ++ String d "")) 0 1)
        with (slice ("" ++ String c "" ++ s ++ String d "")
                (len "") (len "" + len (String c ""))).
      rewrite slice_app. cbn [bind].
      destruct (String.eqb_spec (String c "") dquote) as [E|_];
        [injection E as ->; contradiction | reflexivity].
    + intros s' E. injection E as -> _. contradiction.
Qed.

(** X1: [UnmarshalJSON] accepts exactly the values that are a double quote,
    a text that is not empty, and a double quote; it stores the text between
    the two quotes as it is, without reading escapes, and changes no other
    field. *)
Theorem UnmarshalJSON_accepts_quoted (t t' : VarType) (b : string) :
  UnmarshalJSON t b = Return (t', None) <->
  exists s : string,
    s <> "" /\ b = (dquote ++ s ++ dquote)%string /\ t' = set_Expr t s.
Proof.
  split.
  - intros H.
    destruct (UnmarshalJSON_cases t b)
      as [[_ E] | [(_ & E & _) | (s & Hs & Hb & E)]];
      rewrite E in H; try discriminate.
    injection H as <-. now exists s.
  - intros (s & Hs & -> & ->). now apply UnmarshalJSON_quoted_value.
Qed.

(** X2: when [UnmarshalJSON] fails, the receiver is as it was, and the error
    tells why: the one for an empty type when the value has at most two
    bytes, the one for a string that was expected otherwise. *)
Theorem UnmarshalJSON_failure (t t' : VarType) (b : string) (err : error) :
  UnmarshalJSON t b = Return (t', Some err) ->
  t' = t /\
  (len b <= 2 -> err = ErrJSONEmpty) /\
  (2 < len b ->
   err = ErrJSONString /\
   forall s : string, b <> (dquote ++ s ++ dquote)%string).
Proof.
  intros H.
  destruct (UnmarshalJSON_cases t b)
    as [[Hl E] | [(Hl & E & Hn) | (s & Hs & Hb & E)]];
    rewrite E in H; try discriminate; injection H as <- <-.
  - repeat split; auto; lia.
  - repeat split; auto; lia.
Qed.

(** ** Further properties: errors and recursion *)

(** More fuel does not change a result. *)
Lemma ParseVarTypeExpr_fuel_mono (fuel fuel' : nat) (schema : WebRPCSchema)
  (expr : string) (vt : VarType) (r : VarType * option error) :
  ParseVarTypeExpr fuel schema expr vt = Return r ->
  (fuel <= fuel')%nat ->
  ParseVarTypeExpr fuel' schema expr vt = Return r.
Proof.
  revert fuel' expr vt r. induction fuel as [|fuel IH];
    intros [|fuel'] expr vt r H Hle; try discriminate; try lia.
  cbn [ParseVarTypeExpr] in *.
  destruct (expr =? "")%string; [exact H|].
  cbn [Type_ set_Type set_Expr] in *.
  destruct (exprDataType expr); try exact H.
  - destruct (ParseVarTypeExpr fuel schema _ _) as [p| |] eqn:E;
      cbn [bind] in H; try discriminate.
    rewrite (IH fuel' _ _ _ E) by lia. exact H.
  - destruct (parseMapExpr expr) as [[[key value] e]| |];
      cbn [bind] in *; try exact H.
    destruct e; [exact H|].
    destruct (DataTypeFromString key); [|exact H].
    destruct (ParseVarTypeExpr fuel schema _ _) as [p| |] eqn:E;
      cbn [bind] in H; try discriminate.
    rewrite (IH fuel' _ _ _ E) by lia. exact H.
Qed.

(** The errors of [parseMapExpr] are of three forms, whatever the
    registry. *)
Lemma parseMapExpr_error_forms (expr key value : string) (err : error) :
  parseMapExpr expr = Return (key, value, Some err) ->
  err = ErrInvalidMapExpr expr \/
  (exists e, err = ErrInvalidMapSyntax e) \/
  (exists k e, err = ErrInvalidMapKey k e).
Proof.
  unfold parseMapExpr. intros H.
  repeat match type of H with
         | (if ?b then _ else _) = _ => destruct b
         | bind ?m _ = _ => destruct m; cbn [bind] in H; try discriminate
         end;
    try discriminate; injection H as _ _ E; subst err; eauto.
Qed.

(** An error of [ParseVarTypeExpr] was raised on an expression that the
    descent reaches. *)
Lemma ParseVarTypeExpr_error_origin (fuel : nat) (schema : WebRPCSchema)
  (expr : string) (vt vt' : VarType) (err : error) :
  ParseVarTypeExpr fuel schema expr vt = Return (vt', Some err) ->
  exists sub : string, subexpr expr sub /\ raises schema sub err.
Proof.
  revert expr vt vt'. induction fuel as [|fuel IH]; intros expr vt vt' H;
    [discriminate|].
  cbn [ParseVarTypeExpr] in H.
  destruct (String.eqb_spec expr "") as [|Hne]; [discriminate|].
  cbn [Type_ set_Type set_Expr] in H.
  destruct (exprDataType expr) eqn:Hd; try discriminate.
  - destruct (getMessageType Message_Name schema expr) as [[msg|] [|]] eqn:E;
      inversion H; subst; exists expr;
      (split; [apply subexpr_here |
               apply raises_struct; auto; intros m; congruence]).
  - destruct (ParseVarTypeExpr fuel schema _ _) as [[elem e]| |] eqn:E;
      cbn [bind] in H; try discriminate.
    destruct e; inversion H; subst.
    destruct (IH _ _ _ E) as (sub & D & R).
    exists sub. split; [now apply subexpr_elem | exact R].
  - destruct (parseMapExpr expr) as [[[key value] e]| |] eqn:Em;
      cbn [bind] in H; try discriminate.
    destruct e as [e|].
    { injection H as _ <-. exists expr.
      split; [apply subexpr_here | now apply raises_map with key value]. }
    pose proof (parseMapExpr_key_valid _ _ _ Em) as Hk.
    apply isValidVarKeyType_true in Hk as (dt & Hk & _). rewrite Hk in H.
    destruct (ParseVarTypeExpr fuel schema _ _) as [[val e]| |] eqn:E;
      cbn [bind] in H; try discriminate.
    destruct e; inversion H; subst.
    destruct (IH _ _ _ E) as (sub & D & R).
    exists sub. split; [now apply subexpr_value with key value | exact R].
Qed.

Lemma Parse_error_origin_lemma (t t' : VarType) (schema : WebRPCSchema)
  (err : error) :
  Parse t schema = Return (t', Some err) ->
  Expr t <> "" ->
  exists sub : string, subexpr (Expr t) sub /\ raises schema sub err.
Proof.
  unfold Parse. intros H Hne.
  destruct (String.eqb_spec (Expr t) ""); [contradiction|].
  destruct (ParseVarTypeExpr _ schema (Expr t) t) as [[t1 e]| |] eqn:E;
    cbn [bind] in H; try discriminate.
  destruct e as [e|].
  - injection H as _ <-. now apply ParseVarTypeExpr_error_origin in E.
  - destruct (buildVarTypeExpr t1 ""); cbn [bind] in H; discriminate.
Qed.

(** X3: every error [Parse] returns on a text that is not empty was raised
    on an expression of the descent: by the struct lookup that found no
    message of that name, or by [parseMapExpr].  No other error arises, and
    none is made on the way up. *)
Theorem parse_error_origin (t t' : VarType) (schema : WebRPCSchema)
  (err : error) :
  Expr t <> "" ->
  Parse t schema = Return (t', Some err) ->
  exists sub : string, subexpr (Expr t) sub /\ raises schema sub err.
Proof. intros Hne H. now apply Parse_error_origin_lemma in H. Qed.

Lemma raises_not_empty_error (schema : WebRPCSchema) (sub : string)
  (err : error) :
  raises schema sub err -> err <> ErrEmptyExpr.
Proof.
  intros R. inversion R as [e | e key value err' Hne Hd Hm]; subst;
    [discriminate|].
  apply parseMapExpr_error_forms in Hm as [-> | [(e' & ->) | (k & e' & ->)]];
    discriminate.
Qed.

(** X4: [Parse] reports the empty type expression exactly when the text of
    the receiver is empty, and then the receiver is as it was; an empty
    element or value text further down is never reported so. *)
Theorem parse_empty_error (t t' : VarType) (schema : WebRPCSchema) :
  Parse t schema = Return (t', Some ErrEmptyExpr) <-> Expr t = "" /\ t' = t.
Proof.
  split.
  - intros H. destruct (String.eqb_spec (Expr t) "") as [E|Hne].
    + split; [exact E|]. unfold Parse in H.
      rewrite E in H. cbn in H. now injection H as <-.
    + apply Parse_error_origin_lemma in H as (sub & _ & R); [|exact Hne].
      now apply raises_not_empty_error in R.
  - intros [E ->]. unfold Parse. now rewrite E.
Qed.

(** X5: after [UnmarshalJSON] has accepted a value for a new type
    expression, [Parse] is the parse of the text between the quotes and does
    not report an empty type expression. *)
Theorem unmarshal_then_parse (b : string) (t1 : VarType)
  (schema : WebRPCSchema) :
  UnmarshalJSON (emptyVarType Message) b = Return (t1, None) ->
  exists s : string,
    b = (dquote ++ s ++ dquote)%string /\
    Parse t1 schema = parse s schema /\
    forall t' err,
      Parse t1 schema = Return (t', Some err) -> err <> ErrEmptyExpr.
Proof.
  intros H.
  destruct (UnmarshalJSON_cases (emptyVarType Message) b)
    as [[_ E] | [(_ & E & _) | (s & Hs & Hb & E)]];
    rewrite E in H; try discriminate.
  injection H as <-. exists s. split; [exact Hb | split; [reflexivity|]].
  intros t' err H ->.
  apply Parse_error_origin_lemma in H as (sub & _ & R); [|exact Hs].
  now apply raises_not_empty_error in R.
Qed.

(** X6: the error for an invalid map expression can only be about the bare
    map keyword: an expression that starts with the map marker never gets
    it. *)
Theorem invalid_map_expr_only_for_keyword (t t' : VarType)
  (schema : WebRPCSchema) (e : string) :
  Parse t schema = Return (t', Some (ErrInvalidMapExpr e)) ->
  e = "map"%string.
Proof.
  intros H.
  destruct (String.eqb_spec (Expr t) "") as [E|Hne].
  { unfold Parse in H. rewrite E in H. discriminate. }
  apply Parse_error_origin_lemma in H as (sub & _ & R); [|exact Hne].
  remember (ErrInvalidMapExpr e) as err eqn:He.
  destruct R as [expr | expr key value err Hsub Hd Hm]; [discriminate|].
  subst err.
  destruct (parseMapExpr_returns expr) as (r & E & C).
  rewrite E in Hm. injection Hm as ->.
  inversion C as [Hp | | | |]; subst.
  unfold exprDataType in Hd.
  destruct (DataTypeFromString e) as [d|] eqn:Hf.
  - subst d. apply from_string_sound in Hf. now rewrite map_keyword in Hf.
  - rewrite isMapExpr_prefix, Hp in Hd.
    destruct (isListExpr e); discriminate.
Qed.

(** X7: the recursion of [ParseVarTypeExpr] is at most half the length of
    the expression deep: every recursive call takes two bytes or more off
    the expression, so [fuel] calls are enough for an expression of less than
    [2 * fuel] bytes. *)
Theorem ParseVarTypeExpr_depth (fuel : nat) (schema : WebRPCSchema)
  (expr : string) (vt : VarType) :
  (String.length expr < 2 * fuel)%nat ->
  exists r, ParseVarTypeExpr fuel schema expr vt = Return r.
Proof.
  revert expr vt. induction fuel as [|fuel IH]; intros expr vt Hlen; [lia|].
  cbn [ParseVarTypeExpr].
  destruct (expr =? "")%string; [eexists; reflexivity|].
  cbn [Type_ set_Type set_Expr].
  pose proof (dataType_list expr) as Hl.
  destruct (exprDataType expr); try (eexists; reflexivity).
  - destruct (getMessageType Message_Name schema expr) as [[msg|] [|]];
      eexists; reflexivity.
  - specialize (Hl eq_refl). rewrite list_marker.
    pose proof (list_step_shorter _ Hl) as Hs.
    destruct (IH (TrimPrefix expr "[]") (emptyVarType Message))
      as ([elem err] & E); [lia|].
    rewrite E. cbn [bind]. destruct err; eexists; reflexivity.
  - destruct (parseMapExpr_returns expr) as ([[key value] err] & E & C).
    rewrite E. cbn [bind].
    destruct err as [err|]; [eexists; reflexivity|].
    destruct (DataTypeFromString key) as [keyDataType|];
      [|eexists; reflexivity].
    pose proof (map_step_shorter _ _ _ E) as Hs.
    destruct (IH value (emptyVarType Message)) as ([val err] & E'); [lia|].
    rewrite E'. cbn [bind]. destruct err; eexists; reflexivity.
Qed.

(** ** Further properties: the tree of a parse *)

Lemma getMessageType_In (schema : WebRPCSchema) (structExpr : string)
  (msg : Message) (ok : bool) :
  getMessageType Message_Name schema structExpr = (Some msg, ok) ->
  In msg (Messages schema) /\ Message_Name msg = structExpr.
Proof.
  rewrite getMessageType_find.
  destruct (find _ (Messages schema)) as [m|] eqn:Hf; [|discriminate].
  intros [= <- _]. apply find_some in Hf as [Hin Hn].
  apply String.eqb_eq in Hn. auto.
Qed.

Lemma ParseVarTypeExpr_wellFormed (fuel : nat) (schema : WebRPCSchema)
  (expr : string) (vt' : VarType) :
  ParseVarTypeExpr fuel schema expr (emptyVarType Message)
  = Return (vt', None) ->
  wellFormed schema vt'.
Proof.
  revert expr vt'. induction fuel as [|fuel IH]; intros expr vt' H;
    [discriminate|].
  cbn [ParseVarTypeExpr] in H.
  destruct (expr =? "")%string.
  { injection H as <-. cbn. auto. }
  cbn [Type_ set_Type set_Expr emptyVarType] in H.
  pose proof (dataType_struct expr) as Hs.
  destruct (exprDataType expr);
    try congruence; try (injection H as <-; cbn; now auto).
  - destruct (getMessageType Message_Name schema expr) as [[msg|] [|]] eqn:E;
      inversion H; subst. cbn.
    apply getMessageType_In in E. auto.
  - destruct (ParseVarTypeExpr fuel schema _ _) as [[elem e]| |] eqn:E;
      cbn [bind] in H; try discriminate.
    destruct e; inversion H; subst. cbn. apply IH in E. auto.
  - destruct (parseMapExpr expr) as [[[key value] e]| |] eqn:Em;
      cbn [bind] in H; try discriminate.
    destruct e; [inversion H|].
    apply parseMapExpr_key_valid, isValidVarKeyType_true in Em
      as (dt & Hdt & Hin).
    rewrite Hdt in H.
    destruct (ParseVarTypeExpr fuel schema _ _) as [[val e]| |] eqn:E;
      cbn [bind] in H; try discriminate.
    destruct e; inversion H; subst. cbn. apply IH in E. auto.
Qed.

(** On a text that is not empty the receiver's text is overwritten first:
    a receiver that differs only in its text gives the same result. *)
Lemma ParseVarTypeExpr_set_Expr (fuel : nat) (schema : WebRPCSchema)
  (expr e0 : string) (vt : VarType) :
  expr <> "" ->
  ParseVarTypeExpr fuel schema expr (set_Expr vt e0)
  = ParseVarTypeExpr fuel schema expr vt.
Proof.
  intros Hne. destruct fuel as [|fuel]; [reflexivity|].
  cbn [ParseVarTypeExpr].
  destruct (String.eqb_spec expr ""); [contradiction | reflexivity].
Qed.

Lemma wellFormed_set_Expr (schema : WebRPCSchema) (t : VarType) (s : string) :
  wellFormed schema (set_Expr t s) <-> wellFormed schema t.
Proof. destruct t; reflexivity. Qed.

(** X8: the tree of a successful parse has, at every node, the payload of
    the node's type and no other; the key of every map is [T_String] or an
    integer type, and every struct holds a message of the catalog together
    with that message's name. *)
Theorem parse_well_formed (x : string) (schema : WebRPCSchema)
  (vt : VarType) :
  parse x schema = Return (vt, None) -> wellFormed schema vt.
Proof.
  unfold parse, Parse. cbn [Expr set_Expr]. intros H.
  destruct (String.eqb_spec x "") as [|Hne]; [discriminate|].
  rewrite (ParseVarTypeExpr_set_Expr _ schema x x (emptyVarType Message) Hne)
    in H.
  destruct (ParseVarTypeExpr _ schema x _) as [[t1 err]| |] eqn:E;
    cbn [bind] in H; try discriminate.
  destruct err; [discriminate|].
  destruct (buildVarTypeExpr t1 "") as [s| |]; cbn [bind] in H;
    try discriminate.
  injection H as <-. apply wellFormed_set_Expr.
  now apply ParseVarTypeExpr_wellFormed in E.
Qed.

(** What [ParseVarTypeExpr] has written is what it writes again: on its own
    result it returns the same. *)
Lemma ParseVarTypeExpr_again (fuel : nat) (schema : WebRPCSchema)
  (expr : string) (vt vt' : VarType) (err : option error) :
  ParseVarTypeExpr fuel schema expr vt = Return (vt', err) ->
  ParseVarTypeExpr fuel schema expr vt' = Return (vt', err).
Proof.
  destruct fuel as [|fuel]; [discriminate|].
  cbn [ParseVarTypeExpr]. intros H.
  destruct (expr =? "")%string; [now injection H as <- <-|].
  cbn [Type_ set_Type set_Expr] in *.
  destruct (exprDataType expr) eqn:Hd;
    try (injection H as <- <-; reflexivity).
  - destruct (getMessageType Message_Name schema expr) as [[msg|] [|]];
      injection H as <- <-; reflexivity.
  - destruct (ParseVarTypeExpr fuel schema _ _) as [[elem e]| |];
      cbn [bind] in *; try discriminate.
    destruct e; injection H as <- <-; reflexivity.
  - destruct (parseMapExpr expr) as [[[key value] e]| |];
      cbn [bind] in *; try discriminate.
    destruct e; [injection H as <- <-; reflexivity|].
    destruct (DataTypeFromString key); [|injection H as <- <-; reflexivity].
    destruct (ParseVarTypeExpr fuel schema _ _) as [[val e]| |];
      cbn [bind] in *; try discriminate.
    destruct e; injection H as <- <-; reflexivity.
Qed.

Lemma set_Expr_same (t : VarType) : set_Expr t (Expr t) = t.
Proof. destruct t; reflexivity. Qed.

(** X9: [Parse] can be run again on its receiver.  After a failure it fails
    again with the same error and leaves the receiver as it is; after a
    success that left no unknown node it succeeds again and leaves the
    receiver as it is, whatever the receiver held before the first run. *)
Theorem Parse_again (t t' : VarType) (schema : WebRPCSchema)
  (err : option error) :
  Parse t schema = Return (t', err) ->
  (err = None -> concrete t' = true) ->
  Parse t' schema = Return (t', err).
Proof.
  intros H Hc. pose proof H as H0. unfold Parse in H.
  destruct (String.eqb_spec (Expr t) "") as [E|Hne].
  { injection H as <- <-. exact H0. }
  destruct (ParseVarTypeExpr _ schema (Expr t) t) as [[t1 e]| |] eqn:E;
    cbn [bind] in H; try discriminate.
  pose proof (ParseVarTypeExpr_Expr _ _ _ _ _ _ E Hne) as He.
  pose proof (ParseVarTypeExpr_again _ _ _ _ _ _ E) as Ha.
  destruct e as [e|].
  - injection H as <- <-. unfold Parse. rewrite He.
    destruct (String.eqb_spec (Expr t) ""); [contradiction|].
    rewrite Ha. reflexivity.
  - destruct (buildVarTypeExpr t1 "") as [s| |] eqn:B;
      cbn [bind] in H; try discriminate.
    injection H as <- <-. specialize (Hc eq_refl).
    rewrite concrete_set_Expr in Hc.
    rewrite (canonical_text _ _ _ _ _ E Hne Hc) in B. injection B as <-.
    rewrite <- He, set_Expr_same. unfold Parse.
    destruct (String.eqb_spec (Expr t1) ""); [congruence|].
    rewrite He, Ha. cbn [bind].
    rewrite (canonical_text _ _ _ _ _ E Hne Hc). cbn [bind].
    now rewrite <- He, set_Expr_same.
Qed.

Lemma ParseVarTypeExpr_unknown_iff (fuel : nat) (schema : WebRPCSchema)
  (expr : string) (vt vt' : VarType) :
  expr <> "" ->
  ParseVarTypeExpr fuel schema expr vt = Return (vt', None) ->
  (concrete vt' = false <-> subexpr expr "").
Proof.
  revert expr vt vt'. induction fuel as [|fuel IH]; intros expr vt vt' Hne H;
    [discriminate|].
  cbn [ParseVarTypeExpr] in H.
  destruct (String.eqb_spec expr ""); [contradiction|].
  cbn [Type_ set_Type set_Expr] in H.
  assert (forall rest (elem : VarType),
             ParseVarTypeExpr fuel schema rest (emptyVarType Message)
             = Return (elem, None) ->
             (concrete elem = false <-> subexpr rest "")) as Hrec.
  { intros rest elem E. destruct (String.eqb_spec rest "") as [->|Hr].
    - apply ParseVarTypeExpr_empty in E as [-> _].
      split; [intros _; apply subexpr_here | reflexivity].
    - exact (IH rest (emptyVarType Message) elem Hr E). }
  destruct (exprDataType expr) eqn:Hd;
    try (injection H as <-; cbn; split; [discriminate|];
         intros D; inversion D; subst; congruence).
  - destruct (getMessageType Message_Name schema expr) as [[msg|] [|]];
      inversion H; subst; cbn; split; try discriminate;
      intros D; inversion D; subst; congruence.
  - destruct (ParseVarTypeExpr fuel schema _ _) as [[elem e]| |] eqn:E;
      cbn [bind] in H; try discriminate.
    destruct e; inversion H; subst. cbn.
    rewrite (Hrec _ _ E). split.
    + intros D. now apply subexpr_elem.
    + intros D. inversion D; subst; congruence.
  - destruct (parseMapExpr expr) as [[[key value] e]| |] eqn:Em;
      cbn [bind] in H; try discriminate.
    destruct e; [inversion H|].
    destruct (DataTypeFromString key); [|inversion H].
    destruct (ParseVarTypeExpr fuel schema _ _) as [[val e]| |] eqn:E;
      cbn [bind] in H; try discriminate.
    destruct e; inversion H; subst. cbn.
    rewrite (Hrec _ _ E). split.
    + intros D. now apply subexpr_value with key value.
    + intros D. inversion D; subst; congruence.
Qed.

(** X10: a successful parse has an unknown node exactly when the descent
    reaches an empty text, that of a list element or that of a map value. *)
Theorem unknown_node_iff_empty_text (x : string) (schema : WebRPCSchema)
  (vt : VarType) :
  parse x schema = Return (vt, None) ->
  (concrete vt = false <-> subexpr x "").
Proof.
  unfold parse, Parse. cbn [Expr set_Expr]. intros H.
  destruct (String.eqb_spec x "") as [|Hne]; [discriminate|].
  destruct (ParseVarTypeExpr _ schema x _) as [[t1 err]| |] eqn:E;
    cbn [bind] in H; try discriminate.
  destruct err; [discriminate|].
  destruct (buildVarTypeExpr t1 "") as [s| |]; cbn [bind] in H;
    try discriminate.
  injection H as <-. rewrite concrete_set_Expr.
  now apply (ParseVarTypeExpr_unknown_iff _ _ _ _ _ Hne E).
Qed.

(** ** Further properties: maps, lists and the catalog *)

(** X11: [parseMapExpr] accepts an expression with a key and a value exactly
    when the expression is the map marker, the key, a comma, the value and a
    closing bracket, the key has no comma and is a valid map key.  The value
    is not looked at: it may be empty and may have commas and brackets of
    its own. *)
Theorem parseMapExpr_accepts (expr key value : string) :
  parseMapExpr expr = Return (key, value, None) <->
  expr = ("map<" ++ key ++ "," ++ value ++ ">")%string /\
  ~ Contains key "," /\ isValidVarKeyType key = true.
Proof.
  split.
  - intros H. pose proof (parseMapExpr_key_valid _ _ _ H) as Hk.
    destruct (parseMapExpr_returns expr) as (r & E & C).
    rewrite E in H. injection H as ->.
    inversion C as [ | | | | k v Hexpr N _]; subst. auto.
  - intros (-> & N & Hk). rewrite (parseMapExpr_split key value N).
    now rewrite Hk.
Qed.

(** X12: [getMessageType] returns the first message of the catalog that has
    the name, when one has it, and nothing otherwise; a message comes with
    the flag set and no message comes with the flag unset, so that the test
    for a nil message after the call never decides. *)
Theorem getMessageType_first (schema : WebRPCSchema) (structExpr : string) :
  (exists (before after : list Message) (msg : Message),
      Messages schema = (before ++ msg :: after)%list /\
      Message_Name msg = structExpr /\
      (forall m, In m before -> Message_Name m <> structExpr) /\
      getMessageType Message_Name schema structExpr = (Some msg, true)) \/
  ((forall m, In m (Messages schema) -> Message_Name m <> structExpr) /\
   getMessageType Message_Name schema structExpr = (None, false)).
Proof.
  unfold getMessageType.
  induction (Messages schema) as [|m rest IH]; cbn [getMessageType_loop].
  - right. split; [intros m [] | reflexivity].
  - destruct (String.eqb_spec structExpr (Message_Name m)) as [E|Hne].
    + left. exists [], rest, m. repeat split; auto.
    + destruct IH as [(before & after & msg & -> & Hn & Hb & Hg) | [Hnone Hg]].
      * left. exists (m :: before), after, msg. repeat split; auto.
        intros m' [<- | Hin]; [congruence | now apply Hb].
      * right. split; [|exact Hg].
        intros m' [<- | Hin]; [congruence | now apply Hnone].
Qed.

Lemma parse_unfold (s : string) (schema : WebRPCSchema) :
  parse s schema
  = if (s =? "")%string
    then Return (set_Expr (emptyVarType Message) s, Some ErrEmptyExpr)
    else
      '(t, err) <-
        ParseVarTypeExpr (S (String.length s)) schema s
          (set_Expr (emptyVarType Message) s) ;;
      match err with
      | Some err => Return (t, Some err)
      | None => s <- buildVarTypeExpr t "" ;; Return (set_Expr t s, None)
      end.
Proof. reflexivity. Qed.

Lemma ParseVarTypeExpr_fresh (x : string) (schema : WebRPCSchema)
  (vx : VarType) (err : option error) :
  x <> "" ->
  parse x schema = Return (vx, err) ->
  exists t1,
    ParseVarTypeExpr (S (String.length x)) schema x (emptyVarType Message)
    = Return (t1, err) /\
    t1 = set_Expr vx x /\
    (err = None -> buildVarTypeExpr t1 "" = Return (Expr vx)) /\
    (err <> None -> vx = t1).
Proof.
  intros Hne. unfold parse, Parse. cbn [Expr set_Expr]. intros H.
  destruct (String.eqb_spec x ""); [contradiction|].
  rewrite (ParseVarTypeExpr_set_Expr _ schema x x (emptyVarType Message) Hne)
    in H.
  destruct (ParseVarTypeExpr _ schema x _) as [[t1 e]| |] eqn:E;
    cbn [bind] in H; try discriminate.
  pose proof (ParseVarTypeExpr_Expr _ _ _ _ _ _ E Hne) as He.
  exists t1. destruct e as [e|].
  - injection H as <- <-. rewrite <- He, set_Expr_same.
    repeat split; auto. discriminate.
  - destruct (buildVarTypeExpr t1 "") as [s| |] eqn:B; cbn [bind] in H;
      try discriminate.
    injection H as <- <-. repeat split; auto.
    + destruct t1; cbn in *; now subst.
    + congruence.
Qed.

(** X13: a list of a type parses as the type does.  When the parse of [x]
    succeeds, the parse of [[]x] is the list of that result, and its canonical
    text is the list marker and the canonical text of [x]; when the parse of
    [x] fails, the parse of [[]x] fails with the same error. *)
Theorem parse_list_of (x : string) (schema : WebRPCSchema) (vx : VarType) :
  x <> "" ->
  DataTypeFromString ("[]" ++ x) = None ->
  (parse x schema = Return (vx, None) ->
   parse ("[]" ++ x) schema
   = Return (mkVarType ("[]" ++ Expr vx) T_List
               (Some (mkVarListType (Some (set_Expr vx x)))) None None,
             None)) /\
  (forall err,
      parse x schema = Return (vx, Some err) ->
      parse ("[]" ++ x) schema
      = Return (mkVarType ("[]" ++ x) T_List
                  (Some (mkVarListType (Some vx))) None None,
                Some err)).
Proof.
  intros Hne Hreg.
  assert (forall err t1,
             ParseVarTypeExpr (S (String.length x)) schema x
               (emptyVarType Message) = Return (t1, err) ->
             ParseVarTypeExpr (S (String.length ("[]" ++ x))) schema
               ("[]" ++ x) (set_Expr (emptyVarType Message) ("[]" ++ x))
             = Return (mkVarType ("[]" ++ x) T_List
                         (Some (mkVarListType (Some t1))) None None, err))
    as Hstep.
  { intros err t1 E. cbn [ParseVarTypeExpr].
    destruct (String.eqb_spec ("[]" ++ x) "") as [C|_]; [discriminate C|].
    unfold exprDataType.
    rewrite Hreg, isListExpr_prefix, (HasPrefix_app "[]" x).
    cbn [Type_ set_Type set_Expr]. rewrite list_marker, TrimPrefix_app.
    rewrite (ParseVarTypeExpr_fuel_mono _ (String.length ("[]" ++ x)) _ _ _ _ E)
      by (rewrite length_app; cbn [String.length]; lia).
    cbn [bind]. destruct err; reflexivity. }
  split.
  - intros H. apply ParseVarTypeExpr_fresh in H as (t1 & E & -> & B & _);
      [|exact Hne].
    rewrite parse_unfold.
    destruct (String.eqb_spec ("[]" ++ x) "") as [C|_]; [discriminate C|].
    rewrite (Hstep _ _ E). cbn [bind buildVarTypeExpr].
    rewrite (B eq_refl). reflexivity.
  - intros err H. apply ParseVarTypeExpr_fresh in H as (t1 & E & _ & _ & V);
      [|exact Hne].
    rewrite (V ltac:(discriminate)).
    rewrite parse_unfold.
    destruct (String.eqb_spec ("[]" ++ x) "") as [C|_]; [discriminate C|].
    rewrite (Hstep _ _ E). reflexivity.
Qed.

Lemma isValidVarKeyType_intro (key : string) (dt : DataType) :
  DataTypeFromString key = Some dt -> In dt VarKeyDataTypes ->
  isValidVarKeyType key = true.
Proof.
  intros Hk Hin. unfold isValidVarKeyType, isValidVarType. rewrite Hk.
  induction VarKeyDataTypes as [|t rest IH]; [destruct Hin|].
  cbn [isValidVarType_loop]. destruct (DataType_eqb dt t) eqn:E; [reflexivity|].
  destruct Hin as [<- | Hin]; [|now apply IH].
  assert (DataType_eqb t t = true) by now apply DataType_eqb_eq.
  congruence.
Qed.

(** X14: a map of a type parses as the type does.  With a key that has no
    comma and is in the registry with a type of [VarKeyDataTypes]: when the
    parse of the value text succeeds, the parse of the map is the map node
    with that key type and that result, and its canonical text is written
    with the spelling of the key type and the canonical text of the value;
    when the parse of the value text fails, the parse of the map fails with
    the same error. *)
Theorem parse_map_of (key value : string) (schema : WebRPCSchema)
  (dt : DataType) (vv : VarType) :
  value <> "" ->
  ~ Contains key "," ->
  DataTypeFromString key = Some dt ->
  In dt VarKeyDataTypes ->
  DataTypeFromString ("map<" ++ key ++ "," ++ value ++ ">") = None ->
  (parse value schema = Return (vv, None) ->
   parse ("map<" ++ key ++ "," ++ value ++ ">") schema
   = Return (mkVarType
               ("map<" ++ DataTypeToString dt ++ "," ++ Expr vv ++ ">")
               T_Map None
               (Some (mkVarMapType dt (Some (set_Expr vv value)))) None,
             None)) /\
  (forall err,
      parse value schema = Return (vv, Some err) ->
      parse ("map<" ++ key ++ "," ++ value ++ ">") schema
      = Return (mkVarType ("map<" ++ key ++ "," ++ value ++ ">") T_Map None
                  (Some (mkVarMapType dt (Some vv))) None,
                Some err)).
Proof.
  intros Hne N Hk Hin Hreg.
  set (whole := ("map<" ++ key ++ "," ++ value ++ ">")%string) in *.
  assert (whole <> "") as Hw by discriminate.
  assert (String.length value < String.length whole)%nat as Hlen.
  { unfold whole. rewrite !length_app. cbn [String.length]. lia. }
  assert (forall err t1,
             ParseVarTypeExpr (S (String.length value)) schema value
               (emptyVarType Message) = Return (t1, err) ->
             ParseVarTypeExpr (S (String.length whole)) schema whole
               (set_Expr (emptyVarType Message) whole)
             = Return (mkVarType whole T_Map None
                         (Some (mkVarMapType dt (Some t1))) None, err))
    as Hstep.
  { intros err t1 E. cbn [ParseVarTypeExpr].
    destruct (String.eqb_spec whole ""); [contradiction|].
    unfold exprDataType.
    rewrite Hreg, isListExpr_prefix, isMapExpr_prefix.
    assert (HasPrefix whole "[]" = false) as -> by reflexivity.
    assert (HasPrefix whole "map<" = true) as -> by apply HasPrefix_app.
    cbn [Type_ set_Type set_Expr].
    assert (parseMapExpr whole = Return (key, value, None)) as ->.
    { unfold whole. rewrite (parseMapExpr_split key value N).
      now rewrite (isValidVarKeyType_intro key dt Hk Hin). }
    cbn [bind]. rewrite Hk.
    rewrite (ParseVarTypeExpr_fuel_mono _ (String.length whole) _ _ _ _ E)
      by lia.
    cbn [bind]. destruct err; reflexivity. }
  split.
  - intros H. apply ParseVarTypeExpr_fresh in H as (t1 & E & -> & B & _);
      [|exact Hne].
    rewrite parse_unfold.
    destruct (String.eqb_spec whole ""); [contradiction|].
    rewrite (Hstep _ _ E). cbn [bind buildVarTypeExpr].
    rewrite (B eq_refl). reflexivity.
  - intros err H. apply ParseVarTypeExpr_fresh in H as (t1 & E & _ & _ & V);
      [|exact Hne].
    rewrite (V ltac:(discriminate)).
    rewrite parse_unfold.
    destruct (String.eqb_spec whole ""); [contradiction|].
    rewrite (Hstep _ _ E). reflexivity.
Qed.


(** X16: for an input whose parse leaves no unknown node the canonical text
    is the input itself, so that serializing and parsing again gives the
    same type expression and the same text. *)
Theorem canonical_text_fixed_point (x : string) (schema : WebRPCSchema)
  (vt : VarType) :
  parse x schema = Return (vt, None) ->
  concrete vt = true ->
  serialize vt = Return x /\
  String_ vt = x /\
  forall s, serialize vt = Return s -> parse s schema = Return (vt, None).
Proof.
  intros H Hc.
  destruct (concrete_parse_round_trip x schema vt H Hc) as (He & Hs & Hp).
  repeat split; auto.
  intros s Hs'. rewrite Hs in Hs'. now injection Hs' as <-.
Qed.

(** X17: [isValidVarType] tells whether the string is in the registry with
    a type of the allowed list; a string that is not in the registry is
    never valid. *)
Theorem isValidVarType_spec (s : string) (allowedList : list DataType) :
  isValidVarType DataTypeFromString s allowedList = true <->
  exists dt, DataTypeFromString s = Some dt /\ In dt allowedList.
Proof.
  unfold isValidVarType.
  destruct (DataTypeFromString s) as [dt|].
  - split.
    + intros H. exists dt. split; [reflexivity|].
      now apply isValidVarType_loop_In.
    + intros (dt' & [= <-] & Hin).
      induction allowedList as [|t rest IH]; [destruct Hin|].
      cbn [isValidVarType_loop].
      destruct (DataType_eqb dt t) eqn:E; [reflexivity|].
      destruct Hin as [<- | Hin]; [|now apply IH].
      assert (DataType_eqb t t = true) by now apply DataType_eqb_eq.
      congruence.
  - split; [discriminate | intros (dt & H & _); discriminate].
Qed.

(** X18: after a successful [Parse] the text of the receiver, which
    [String] returns, is the serialization of the receiver's tree, whatever
    the receiver held before. *)
Theorem Parse_text_is_serialization (t t' : VarType)
  (schema : WebRPCSchema) :
  Parse t schema = Return (t', None) ->
  serialize t' = Return (String_ t').
Proof.
  unfold Parse. intros H.
  destruct (Expr t =? "")%string; [discriminate|].
  destruct (ParseVarTypeExpr _ schema (Expr t) t) as [[t1 e]| |];
    cbn [bind] in H; try discriminate.
  destruct e; [discriminate|].
  destruct (buildVarTypeExpr t1 "") as [s| |] eqn:B; cbn [bind] in H;
    try discriminate.
  injection H as <-. unfold serialize, String_.
  now rewrite buildVarTypeExpr_set_Expr.
Qed.

End SchemaFacts.

(** ** The registry of the package meets what the facts ask *)

Module RegistryFacts.

Import Registry.

Lemma spelling_of_list : DataTypeToString T_List = "[]".
Proof. reflexivity. Qed.

Lemma spelling_of_map : DataTypeToString T_Map = "map".
Proof. reflexivity. Qed.

Lemma lookupType_sound (tbl more : list (DataType * string)) (s : string)
  (t : DataType) :
  NoDup (map fst tbl) ->
  lookupType tbl s = Some t -> lookupSpelling (tbl ++ more) t = s.
Proof.
  induction tbl as [|[t' s'] rest IH]; simpl; intros Hnd H; [discriminate|].
  inversion Hnd as [|? ? Hnotin Hnd']; subst.
  destruct (String.eqb_spec s s') as [->|Hne].
  - injection H as ->.
    destruct (DataType_eqb t t) eqn:E; [reflexivity|].
    unfold DataType_eqb in E. destruct (DataType_eq_dec t t); congruence.
  - destruct (DataType_eqb t t') eqn:E.
    + apply DataType_eqb_eq in E as <-. exfalso. apply Hnotin.
      clear -H. induction rest as [|[t2 s2] rest IH]; simpl in *;
        [discriminate|].
      destruct (s =? s2)%string; [injection H as ->; auto | auto].
    + now apply IH.
Qed.

Lemma scalars_NoDup : NoDup (map fst scalars).
Proof.
  unfold scalars. simpl.
  repeat (constructor; [simpl; intuition discriminate|]). constructor.
Qed.

Lemma reverse_table_sound (s : string) (t : DataType) :
  DataTypeFromString s = Some t -> DataTypeToString t = s.
Proof. apply lookupType_sound, scalars_NoDup. Qed.

Lemma spellings_NoDup : NoDup (map fst (scalars ++ markers)).
Proof.
  unfold scalars, markers. simpl.
  repeat (constructor; [simpl; intuition discriminate|]). constructor.
Qed.

Lemma reverse_table_all_sound (s : string) (t : DataType) :
  DataTypeFromStringAll s = Some t -> DataTypeToString t = s.
Proof.
  intros H.
  pose proof (lookupType_sound (scalars ++ markers) [] s t spellings_NoDup H)
    as E.
  now rewrite app_nil_r in E.
Qed.

Lemma lookupType_In (tbl : list (DataType * string)) (s : string)
  (t : DataType) :
  lookupType tbl s = Some t -> In t (map fst tbl).
Proof.
  induction tbl as [|[t' s'] rest IH]; simpl; [discriminate|].
  destruct (s =? s')%string; [intros [= ->]; auto | auto].
Qed.

(** The reverse table holds scalar types only. *)
Lemma reverse_table_scalar (s : string) (t : DataType) :
  DataTypeFromString s = Some t -> kindOf t = Primitive.
Proof.
  intros H. apply lookupType_In in H. simpl in H.
  repeat (destruct H as [<- | H]; [reflexivity|]). contradiction.
Qed.

Lemma no_spelling_for_struct (s : string) :
  DataTypeFromString s <> Some T_Struct.
Proof. intros H. apply reverse_table_scalar in H. discriminate. Qed.

Lemma no_empty_spelling : DataTypeFromString "" = None.
Proof. reflexivity. Qed.

End RegistryFacts.

(** ** The claims on the registry of the package *)

Module Claims.

Import GoString.

Local Abbreviation fresh x := (set_Expr (emptyVarType Example.Message) x).

(** C1: the code does not meet the round trip.  The list marker alone
    parses: the recursive call on the empty rest returns at once and leaves
    the element as allocated, and the serializer writes the sentinel for
    it.  The canonical text so obtained does not parse. *)
Theorem round_trip_breaks_on_empty_element :
  Example.parse "[]" Example.catalog
  = Return (mkVarType "[]<unknown>" T_List
              (Some (mkVarListType (Some (emptyVarType Example.Message))))
              None None, None) /\
  Example.serialize
    (mkVarType "[]<unknown>" T_List
       (Some (mkVarListType (Some (emptyVarType Example.Message))))
       None None)
  = Return "[]<unknown>"%string /\
  Example.parse "[]<unknown>" Example.catalog
  = Return (mkVarType "[]<unknown>" T_List
              (Some (mkVarListType
                       (Some (mkVarType "<unknown>" T_Unknown None None None))))
              None None,
            Some (ErrInvalidStruct "<unknown>")).
Proof. repeat split; vm_compute; reflexivity. Qed.

(** C2: the code returns a tree with a node of kind Unknown on a successful
    parse.  A map whose value text is empty parses, and its value is a type
    expression that was only allocated. *)
Theorem empty_map_value_parses :
  Example.parse "map<string,>" Example.catalog
  = Return (mkVarType "map<string,<unknown>>" T_Map None
              (Some (mkVarMapType T_String
                       (Some (emptyVarType Example.Message))))
              None, None) /\
  concrete
    (mkVarType "map<string,<unknown>>" T_Map None
       (Some (mkVarMapType T_String (Some (emptyVarType Example.Message))))
       None)
  = false /\
  Type_ (emptyVarType Example.Message) = T_Unknown.
Proof. repeat split; vm_compute; reflexivity. Qed.




(** ** The theorems at work *)

Local Abbreviation FromString := Registry.DataTypeFromString.
Local Abbreviation ToString := Registry.DataTypeToString.


Lemma map_expr_shape_witness :
  "map<string,[]uint32>"%string
  = ("map<" ++ "string" ++ "," ++ "[]uint32" ++ ">")%string /\
  ~ Contains "string" "," /\
  exists dt : DataType,
    FromString "string" = Some dt /\ ToString dt = "string"%string /\
    (dt = T_String \/ In dt VarIntegerDataTypes).
Proof.
  apply (map_expr_shape FromString ToString RegistryFacts.spelling_of_map
           RegistryFacts.reverse_table_sound
           "map<string,[]uint32>" "string" "[]uint32").
  vm_compute. reflexivity.
Defined.

Lemma primitive_lookup_first_witness :
  Example.parse "uint32" Example.shadowing
  = Return (mkVarType "uint32" T_Uint32 None None None, None) /\
  forall vt : VarType Example.Message,
    ParseVarTypeExpr Example.Message_Name FromString ToString 1 Example.shadowing
      "uint32" vt
    = Return (set_Type (set_Expr vt "uint32") T_Uint32, None).
Proof.
  apply (primitive_lookup_first Example.Message Example.Message_Name FromString ToString
           RegistryFacts.reverse_table_sound RegistryFacts.no_empty_spelling
           Example.shadowing "uint32" T_Uint32); reflexivity.
Defined.



Lemma ParseVarTypeExpr_terminates_witness :
  exists r,
    ParseVarTypeExpr Example.Message_Name FromString ToString 13
      Example.catalog "[][][][]User" (emptyVarType Example.Message)
    = Return r.
Proof.
  apply (proj2 (proj2 (ParseVarTypeExpr_terminates Example.Message Example.Message_Name
                         FromString ToString
                         RegistryFacts.spelling_of_list
                         RegistryFacts.spelling_of_map
                         RegistryFacts.reverse_table_sound
                         Example.catalog "[][][][]User"
                         (emptyVarType Example.Message)))).
  vm_compute. lia.
Defined.

Lemma map_key_type_error_unreachable_witness :
  (exists dt, FromString "int64" = Some dt) /\
  forall key e : string,
    ErrInvalidMapKey "[]string" "[]string,uint32"
    <> ErrInvalidMapKeyType key e.
Proof.
  split.
  - apply (proj1 (map_key_type_error_unreachable Example.Message Example.Message_Name
                    FromString ToString)
             "map<int64,bool>"%string "int64"%string "bool"%string).
    vm_compute. reflexivity.
  - apply (proj2 (map_key_type_error_unreachable Example.Message Example.Message_Name
                    FromString ToString)
             8%nat Example.catalog "map<[]string,uint32>"%string
             (emptyVarType Example.Message)
             (mkVarType "map<[]string,uint32>" T_Map None None None)).
    vm_compute. reflexivity.
Defined.


End Claims.

(** ** The further properties at work *)

Module Extras.

Import GoString GoStringFacts.

Local Abbreviation FromString := Registry.DataTypeFromString.
Local Abbreviation FromStringAll := Registry.DataTypeFromStringAll.
Local Abbreviation ToString := Registry.DataTypeToString.
Local Abbreviation Name := Example.Message_Name.
Local Abbreviation fresh x := (set_Expr (emptyVarType Example.Message) x).
Local Abbreviation userType :=
  (mkVarType "User" T_Struct None None
     (Some (mkVarStructType "User" (Some Example.User)))).

Lemma UnmarshalJSON_accepts_quoted_witness :
  UnmarshalJSON (emptyVarType Example.Message) (dquote ++ "[]uint32" ++ dquote)
  = Return (fresh "[]uint32", None).
Proof.
  apply (proj2 (UnmarshalJSON_accepts_quoted Example.Message
                  (emptyVarType Example.Message) (fresh "[]uint32")
                  (dquote ++ "[]uint32" ++ dquote))).
  exists "[]uint32"%string. repeat split. discriminate.
Defined.

Lemma UnmarshalJSON_failure_witness :
  fresh "old" = fresh "old" /\
  (len "uint32" <= 2 -> ErrJSONString = ErrJSONEmpty) /\
  (2 < len "uint32" ->
   ErrJSONString = ErrJSONString /\
   forall s : string, "uint32"%string <> (dquote ++ s ++ dquote)%string).
Proof.
  apply (UnmarshalJSON_failure Example.Message (fresh "old") (fresh "old")
           "uint32" ErrJSONString).
  vm_compute. reflexivity.
Defined.

Lemma parse_error_origin_witness :
  exists sub : string,
    subexpr FromString ToString (Expr (fresh "[]Foo")) sub /\
    raises Name FromString ToString Example.catalog sub
      (ErrInvalidStruct "Foo").
Proof.
  apply (parse_error_origin Example.Message Name FromString ToString
           (fresh "[]Foo")
           (mkVarType "[]Foo" T_List
              (Some (mkVarListType
                       (Some (mkVarType "Foo" T_Unknown None None None))))
              None None)
           Example.catalog (ErrInvalidStruct "Foo")).
  - discriminate.
  - vm_compute. reflexivity.
Defined.

Lemma parse_empty_error_witness :
  Parse Name FromString ToString (emptyVarType Example.Message)
    Example.catalog
  = Return (emptyVarType Example.Message, Some ErrEmptyExpr).
Proof.
  apply (proj2 (parse_empty_error Example.Message Name FromString ToString
                  (emptyVarType Example.Message)
                  (emptyVarType Example.Message) Example.catalog)).
  split; reflexivity.
Defined.

Lemma unmarshal_then_parse_witness :
  exists s : string,
    (dquote ++ "User" ++ dquote)%string = (dquote ++ s ++ dquote)%string /\
    Parse Name FromString ToString (fresh "User") Example.catalog
    = Example.parse s Example.catalog /\
    forall t' err,
      Parse Name FromString ToString (fresh "User") Example.catalog
      = Return (t', Some err) -> err <> ErrEmptyExpr.
Proof.
  apply (unmarshal_then_parse Example.Message Name FromString ToString
           (dquote ++ "User" ++ dquote) (fresh "User") Example.catalog).
  vm_compute. reflexivity.
Defined.

Lemma invalid_map_expr_only_for_keyword_witness : "map"%string = "map"%string.
Proof.
  apply (invalid_map_expr_only_for_keyword Example.Message Name
           FromStringAll ToString RegistryFacts.spelling_of_map
           RegistryFacts.reverse_table_all_sound
           (fresh "[]map")
           (mkVarType "[]map" T_List
              (Some (mkVarListType
                       (Some (mkVarType "map" T_Map None None None))))
              None None)
           Example.catalog "map").
  vm_compute. reflexivity.
Defined.

Lemma ParseVarTypeExpr_depth_witness :
  exists r,
    ParseVarTypeExpr Name FromString ToString 7 Example.catalog
      "[][][][]User" (emptyVarType Example.Message)
    = Return r.
Proof.
  apply (ParseVarTypeExpr_depth Example.Message Name FromString ToString
           RegistryFacts.spelling_of_list RegistryFacts.spelling_of_map
           RegistryFacts.reverse_table_sound
           7 Example.catalog "[][][][]User" (emptyVarType Example.Message)).
  vm_compute. lia.
Defined.

Lemma parse_well_formed_witness :
  wellFormed Name Example.catalog
    (mkVarType "map<string,[]User>" T_Map None
       (Some (mkVarMapType T_String
                (Some (mkVarType "[]User" T_List
                         (Some (mkVarListType (Some userType)))
                         None None))))
       None).
Proof.
  apply (parse_well_formed Example.Message Name FromString ToString
           RegistryFacts.no_spelling_for_struct
           "map<string,[]User>" Example.catalog).
  vm_compute. reflexivity.
Defined.

Lemma Parse_again_witness :
  Parse Name FromString ToString
    (mkVarType "[]User" T_List (Some (mkVarListType (Some userType)))
       None None)
    Example.catalog
  = Return (mkVarType "[]User" T_List
              (Some (mkVarListType (Some userType))) None None,
            None).
Proof.
  apply (Parse_again Example.Message Name FromString ToString
           RegistryFacts.spelling_of_list RegistryFacts.spelling_of_map
           RegistryFacts.reverse_table_sound
           RegistryFacts.no_spelling_for_struct
           (fresh "[]User")).
  - vm_compute. reflexivity.
  - reflexivity.
Defined.

Lemma unknown_node_iff_empty_text_witness :
  concrete
    (mkVarType "[]<unknown>" T_List
       (Some (mkVarListType (Some (emptyVarType Example.Message))))
       None None)
  = false <->
  subexpr FromString ToString "[]" "".
Proof.
  apply (unknown_node_iff_empty_text Example.Message Name FromString ToString
           "[]" Example.catalog).
  vm_compute. reflexivity.
Defined.

Lemma parseMapExpr_accepts_witness :
  Example.parseMapExpr "map<string,map<string,uint32>>"
  = Return ("string"%string, "map<string,uint32>"%string, None).
Proof.
  apply (proj2 (parseMapExpr_accepts FromString ToString
                  RegistryFacts.spelling_of_map
                  "map<string,map<string,uint32>>" "string"
                  "map<string,uint32>")).
  split; [reflexivity | split; [|reflexivity]].
  apply not_Contains_by_Index. reflexivity.
Defined.

Lemma parse_list_of_witness :
  Example.parse "[]User" Example.catalog
  = Return (mkVarType "[]User" T_List
              (Some (mkVarListType (Some userType))) None None,
            None).
Proof.
  apply (proj1 (parse_list_of Example.Message Name FromString ToString
                  RegistryFacts.spelling_of_list
                  "User" Example.catalog userType
                  ltac:(discriminate) eq_refl)).
  vm_compute. reflexivity.
Defined.

Lemma parse_map_of_witness :
  Example.parse "map<string,User>" Example.catalog
  = Return (mkVarType "map<string,User>" T_Map None
              (Some (mkVarMapType T_String (Some userType))) None,
            None).
Proof.
  apply (proj1 (parse_map_of Example.Message Name FromString ToString
                  RegistryFacts.spelling_of_list RegistryFacts.spelling_of_map
                  "string" "User" Example.catalog T_String userType
                  ltac:(discriminate)
                  (not_Contains_by_Index "," "string" eq_refl)
                  eq_refl (or_introl eq_refl) eq_refl)).
  vm_compute. reflexivity.
Defined.


Lemma canonical_text_fixed_point_witness :
  Example.serialize
    (mkVarType "[]User" T_List (Some (mkVarListType (Some userType)))
       None None)
  = Return "[]User"%string /\
  String_
    (mkVarType "[]User" T_List (Some (mkVarListType (Some userType)))
       None None)
  = "[]User"%string /\
  forall s,
    Example.serialize
      (mkVarType "[]User" T_List (Some (mkVarListType (Some userType)))
         None None)
    = Return s ->
    Example.parse s Example.catalog
    = Return (mkVarType "[]User" T_List
                (Some (mkVarListType (Some userType))) None None,
              None).
Proof.
  apply (canonical_text_fixed_point Example.Message Name FromString ToString
           RegistryFacts.spelling_of_list RegistryFacts.spelling_of_map
           RegistryFacts.reverse_table_sound
           RegistryFacts.no_spelling_for_struct
           "[]User" Example.catalog).
  - vm_compute. reflexivity.
  - reflexivity.
Defined.

Lemma isValidVarType_spec_witness :
  isValidVarType FromString "int8" VarIntegerDataTypes = true.
Proof.
  apply (proj2 (isValidVarType_spec FromString "int8" VarIntegerDataTypes)).
  exists T_Int8. split; [reflexivity | simpl; auto 10].
Defined.

Lemma Parse_text_is_serialization_witness :
  Example.serialize
    (mkVarType "map<string,<unknown>>" T_Map None
       (Some (mkVarMapType T_String
                (Some (emptyVarType Example.Message)))) None)
  = Return
      (String_
         (mkVarType "map<string,<unknown>>" T_Map None
            (Some (mkVarMapType T_String
                     (Some (emptyVarType Example.Message)))) None)).
Proof.
  apply (Parse_text_is_serialization Example.Message Name FromString ToString
           (fresh "map<string,>") _ Example.catalog).
  vm_compute. reflexivity.
Defined.

End Extras.
